(** * Pushpin proxy supervisor, control-request client and updater

    A shallow embedding of the parts of Pushpin that configure and start the
    proxy workers ([src/proxy/app.cpp]), of the conncheck RPC client
    ([src/handler/controlrequest.cpp]) and of the update checker's response
    handler ([updater.cpp]), followed by the properties established for
    them.

    Conventions.
    - A C++ [int] is a [Z]; arithmetic whose result leaves the 32-bit range
      (undefined behaviour in C++) and division by zero yield [None].
    - [QString] and [QByteArray] are [string]; [QStringList] is
      [list string]; [QSet<QString>] is [gset string].
    - Mutation of an object is explicit state passing; calls into classes
      that are outside the embedded files are recorded as [Action]s in an
      ordered log. *)

From Stdlib Require Import ZArith Lia.
From stdpp Require Import base option list list_numbers strings pretty gmap.
From Equations Require Import Equations.
From Equations.Prop Require Import Logic.

Local Open Scope string_scope.
Local Open Scope list_scope.
Local Open Scope Z_scope.

(* ===================================================================== *)
(** * Part I: definitions                                                 *)
(* ===================================================================== *)

(** ** C++ [int] arithmetic *)

Module Int.

Definition INT_MIN : Z := - 2 ^ 31.
Definition INT_MAX : Z := 2 ^ 31 - 1.

Definition in_range (z : Z) : bool := (INT_MIN <=? z) && (z <=? INT_MAX).

(** The value of an [int] expression, when it is representable. *)
Definition checked (z : Z) : option Z :=
  if in_range z then Some z else None.

Definition add (a b : Z) : option Z := checked (a + b).

(** [a / b] on [int]: truncation toward zero; division by zero and
    [INT_MIN / -1] have no value. *)
Definition div (a b : Z) : option Z :=
  if b =? 0 then None else checked (a ÷ b).

End Int.

(** ** Qt value types *)

Module Qt.

Definition QString : Type := string.
Definition QByteArray : Type := string.
Definition QStringList : Type := list string.

(** [QString::isEmpty] *)
Definition isEmpty (s : QString) : bool :=
  match s with
  | EmptyString => true
  | String _ _ => false
  end.

(** [QString::startsWith] *)
Definition startsWith (s p : QString) : bool := String.prefix p s.

(** [QString::number(int)], [QByteArray::number(int)] and the text that
    [QString::arg(int)] substitutes: the decimal representation. *)
Definition number (i : Z) : QString := pretty i.

(** [QList::operator[]]: defined on valid indices only. *)
Definition at_ {A} (l : list A) (n : Z) : option A :=
  if n <? 0 then None else l !! Z.to_nat n.

(** [QList::removeAt] *)
Definition removeAt {A} (l : list A) (n : Z) : list A :=
  delete (Z.to_nat n) l.

(** [QList::count] *)
Definition count {A} (l : list A) : Z := Z.of_nat (length l).

(** The conversions between UTF-16 text and UTF-8 bytes are Qt's. *)
Class Utf8 := {
  toUtf8 : QString -> QByteArray;
  fromUtf8 : QByteArray -> QString
}.

End Qt.

(** ** [src/proxy/app.cpp] *)

Module App.
Import Qt.

(** *** [trimlist]

    [for(int n = 0; n < list->count(); ++n)] with the body removing an
    empty entry and stepping [n] back.  The state of the loop is the
    list and [n] at the loop head; an index outside the list (an
    assertion failure in [QList]) is [None]. *)
Equations? trimlist_loop (l : QStringList) (n : Z) : option QStringList
  by wf (Z.to_nat (count l - n)) lt :=
  trimlist_loop l n with decide (n < count l) := {
    | right _ => Some l
    | left Hlt with inspect (at_ l n) := {
        | exist _ None _ => None
        | exist _ (Some s) Hs with inspect (isEmpty s) := {
            | exist _ true _ => trimlist_loop (removeAt l n) ((n - 1) + 1)
            | exist _ false _ => trimlist_loop l (n + 1) } } }.
Proof.
  - unfold at_ in Hs. destruct (n <? 0) eqn:Hn; [discriminate|].
    apply Z.ltb_ge in Hn. apply lookup_lt_Some in Hs.
    unfold count, removeAt in *. rewrite length_delete by eauto using lookup_lt_is_Some_2.
    lia.
  - unfold count in *. lia.
Qed.

Definition trimlist (list : QStringList) : option QStringList :=
  trimlist_loop list 0.

(** *** [suffixSpec] and [suffixSpecs] *)

Definition suffixSpec (s : QString) (i : Z) : QString :=
  if startsWith s "ipc:" then s +:+ ("-" +:+ number i) else s.

Definition suffixSpecs (l : QStringList) (i : Z) : QStringList :=
  match l with
  | [l0] => if startsWith l0 "ipc:" then [l0 +:+ ("-" +:+ number i)] else l
  | _ => l
  end.

(** *** Command line *)

Inductive CommandLineParseResult :=
| CommandLineOk
| CommandLineError
| CommandLineVersionRequested
| CommandLineHelpRequested.

Record ArgsData := {
  configFile : QString;
  logFile : QString;
  logLevel : Z;
  ipcPrefix : QString;
  routeLines : QStringList;
  quietCheck : bool
}.

(** [ArgsData::ArgsData()] *)
Definition ArgsData_init : ArgsData :=
  {| configFile := ""; logFile := ""; logLevel := -1; ipcPrefix := "";
     routeLines := []; quietCheck := false |}.

(** What [QCommandLineParser::parse] leaves behind: whether the arguments
    were accepted, the error text, and the options found, in command-line
    order, each with its value (empty for a flag). *)
Record QCommandLineParser := {
  parseOk : bool;
  errorText : QString;
  parsed : list (QString * QString)
}.

Definition values (p : QCommandLineParser) (name : QString) : QStringList :=
  (filter (fun o => o.1 = name) (parsed p)).*2.

Definition isSet (p : QCommandLineParser) (name : QString) : bool :=
  negb (bool_decide (values p name = [])).

(** [QCommandLineParser::value]: the last value given. *)
Definition value (p : QCommandLineParser) (name : QString) : QString :=
  List.last (values p name) "".

(** [QString::toInt(&ok)] is Qt's; [None] stands for [ok == false]. *)
Class ToInt := toInt : QString -> option Z.

(** [QFileInfo(path).isRelative()] and
    [QFileInfo(dir, path).filePath()] are Qt's. *)
Class QFileInfo := {
  isRelative : QString -> bool;
  filePath : QString -> QString -> QString
}.

Definition parseCommandLine `{ToInt} (parser : QCommandLineParser)
    (args : ArgsData) : CommandLineParseResult * ArgsData * QString :=
  if negb (parseOk parser) then (CommandLineError, args, errorText parser)
  else if isSet parser "version" then (CommandLineVersionRequested, args, "")
  else if isSet parser "help" then (CommandLineHelpRequested, args, "")
  else
    let args :=
      if isSet parser "config"
      then {| configFile := value parser "config"; logFile := logFile args;
              logLevel := logLevel args; ipcPrefix := ipcPrefix args;
              routeLines := routeLines args; quietCheck := quietCheck args |}
      else args in
    let args :=
      if isSet parser "logfile"
      then {| configFile := configFile args; logFile := value parser "logfile";
              logLevel := logLevel args; ipcPrefix := ipcPrefix args;
              routeLines := routeLines args; quietCheck := quietCheck args |}
      else args in
    let level :=
      if isSet parser "loglevel"
      then match toInt (value parser "loglevel") with
           | Some x => if x <? 0 then None else Some x
           | None => None
           end
      else Some (logLevel args) in
    match level with
    | None =>
        (CommandLineError, args,
         "error: loglevel must be greater than or equal to 0")
    | Some level =>
        let level := if isSet parser "verbose" then 3 else level in
        let prefix :=
          if isSet parser "ipc-prefix" then value parser "ipc-prefix"
          else ipcPrefix args in
        let lines :=
          if isSet parser "route"
          then foldl (fun acc r => (acc ++ [r])%list) (routeLines args)
                     (values parser "route")
          else routeLines args in
        let quiet :=
          if isSet parser "quiet-check" then true else quietCheck args in
        (CommandLineOk,
         {| configFile := configFile args; logFile := logFile args;
            logLevel := level; ipcPrefix := prefix;
            routeLines := lines; quietCheck := quiet |}, "")
    end.

(** *** Engine configuration

    The fields of [Engine::Configuration] that carry the worker's id, its
    client id, the endpoint specs and the session limit.  The remaining
    fields do not bear on the properties below and are left out. *)
Record Configuration := {
  id : Z;
  clientId : QByteArray;
  serverInSpecs : QStringList;
  serverInStreamSpecs : QStringList;
  serverOutSpecs : QStringList;
  clientOutSpecs : QStringList;
  clientOutStreamSpecs : QStringList;
  clientInSpecs : QStringList;
  inspectSpec : QString;
  acceptSpec : QString;
  retryInSpec : QString;
  wsControlInitSpecs : QStringList;
  wsControlStreamSpecs : QStringList;
  statsSpec : QString;
  commandSpec : QString;
  intServerInSpecs : QStringList;
  intServerInStreamSpecs : QStringList;
  intServerOutSpecs : QStringList;
  sessionsMax : Z
}.

(** The settings file as [Settings::value] presents it: per key, the
    entry converted by [toInt], [toString] or [toStringList]. *)
Record Settings := {
  intValues : gmap string Z;
  stringValues : gmap string QString;
  listValues : gmap string QStringList;
  boolValues : gmap string bool
}.

Definition value_int (s : Settings) (key : string) (def : Z) : Z :=
  default def (intValues s !! key).
Definition value_string (s : Settings) (key : string) : QString :=
  default "" (stringValues s !! key).
Definition value_list (s : Settings) (key : string) : QStringList :=
  default [] (listValues s !! key).
Definition value_bool (s : Settings) (key : string) (def : bool) : bool :=
  default def (boolValues s !! key).

(** [settings.value(key).toStringList()] followed by [trimlist]. *)
Definition trimmed (s : Settings) (key : string) : option QStringList :=
  trimlist (value_list s key).

(** [QStringList::isEmpty] *)
Definition isEmpty_list (l : QStringList) : bool :=
  match l with [] => true | _ :: _ => false end.

(** [QStringList::contains] *)
Definition contains (l : QStringList) (x : QString) : bool :=
  bool_decide (x ∈ l).

(** Lines 574-578 of [run]: [sessionsMax] should not exceed
    [clientMaxconn]. *)
Definition effectiveSessionsMax (sessionsMax clientMaxconn : Z) : Z :=
  if 0 <=? sessionsMax then Z.min sessionsMax clientMaxconn
  else clientMaxconn.

Record RunLoopArgs := {
  rl_config : Configuration;
  rl_routeLines : QStringList;
  rl_routesFile : QString;
  rl_workerCount : Z;
  rl_newEventLoop : bool
}.

(** *** [App::Private::run], from the reading of the settings on

    [pid] is [QCoreApplication::applicationPid()] and [configDir] the
    directory of the configuration file.  The result is
    [inl code] when [run] returns before the workers are configured and
    [inr a] when it ends in [runLoop a]. *)
Definition run `{QFileInfo} (settings : Settings) (args : ArgsData)
    (pid : Z) (configDir : QString) : option (Z + RunLoopArgs) :=
  let services := value_list settings "runner/services" in
  let workerCount := value_int settings "proxy/workers" 1 in
  connmgr_in_specs ← trimmed settings "proxy/connmgr_in_specs";
  connmgr_in_stream_specs ← trimmed settings "proxy/connmgr_in_stream_specs";
  connmgr_out_specs ← trimmed settings "proxy/connmgr_out_specs";
  condure_in_specs ← trimmed settings "proxy/condure_in_specs";
  let connmgr_in_specs := (connmgr_in_specs ++ condure_in_specs)%list in
  condure_in_stream_specs ← trimmed settings "proxy/condure_in_stream_specs";
  let connmgr_in_stream_specs :=
    (connmgr_in_stream_specs ++ condure_in_stream_specs)%list in
  condure_out_specs ← trimmed settings "proxy/condure_out_specs";
  let connmgr_out_specs := (connmgr_out_specs ++ condure_out_specs)%list in
  m2a_in_specs ← trimmed settings "proxy/m2a_in_specs";
  m2a_in_stream_specs ← trimmed settings "proxy/m2a_in_stream_specs";
  m2a_out_specs ← trimmed settings "proxy/m2a_out_specs";
  connmgr_client_out_specs ← trimmed settings "proxy/connmgr_client_out_specs";
  connmgr_client_out_stream_specs ←
    trimmed settings "proxy/connmgr_client_out_stream_specs";
  connmgr_client_in_specs ← trimmed settings "proxy/connmgr_client_in_specs";
  condure_client_out_specs ← trimmed settings "proxy/condure_client_out_specs";
  let connmgr_client_out_specs :=
    (connmgr_client_out_specs ++ condure_client_out_specs)%list in
  condure_client_out_stream_specs ←
    trimmed settings "proxy/condure_client_out_stream_specs";
  let connmgr_client_out_stream_specs :=
    (connmgr_client_out_stream_specs ++ condure_client_out_stream_specs)%list in
  condure_client_in_specs ← trimmed settings "proxy/condure_client_in_specs";
  let connmgr_client_in_specs :=
    (connmgr_client_in_specs ++ condure_client_in_specs)%list in
  zurl_out_specs ← trimmed settings "proxy/zurl_out_specs";
  zurl_out_stream_specs ← trimmed settings "proxy/zurl_out_stream_specs";
  zurl_in_specs ← trimmed settings "proxy/zurl_in_specs";
  let handler_inspect_spec := value_string settings "proxy/handler_inspect_spec" in
  let handler_accept_spec := value_string settings "proxy/handler_accept_spec" in
  let handler_retry_in_spec := value_string settings "proxy/handler_retry_in_spec" in
  handler_ws_control_init_specs ←
    trimmed settings "proxy/handler_ws_control_init_specs";
  handler_ws_control_stream_specs ←
    trimmed settings "proxy/handler_ws_control_stream_specs";
  let stats_spec := value_string settings "proxy/stats_spec" in
  let command_spec := value_string settings "proxy/command_spec" in
  intreq_in_specs ← trimmed settings "proxy/intreq_in_specs";
  intreq_in_stream_specs ← trimmed settings "proxy/intreq_in_stream_specs";
  intreq_out_specs ← trimmed settings "proxy/intreq_out_specs";
  let sessionsMax := value_int settings "proxy/max_open_requests" (-1) in
  let routesFile := value_string settings "proxy/routesfile" in
  let routesFile :=
    if isRelative routesFile then filePath configDir routesFile
    else routesFile in
  _ ← trimmed settings "proxy/orig_headers_need_mark";
  let clientMaxconn := value_int settings "runner/client_maxconn" 50000 in
  let newEventLoop := value_bool settings "proxy/new_event_loop" false in
  if negb (negb (isEmpty_list connmgr_in_specs)
           && negb (isEmpty_list connmgr_in_stream_specs)
           && negb (isEmpty_list connmgr_out_specs))
     && negb (negb (isEmpty_list m2a_in_specs)
              && negb (isEmpty_list m2a_in_stream_specs)
              && negb (isEmpty_list m2a_out_specs))
  then Some (inl 1)
  else if negb (negb (isEmpty_list connmgr_client_out_specs)
                && negb (isEmpty_list connmgr_client_out_stream_specs)
                && negb (isEmpty_list connmgr_client_in_specs))
          && negb (negb (isEmpty_list zurl_out_specs)
                   && negb (isEmpty_list zurl_out_stream_specs)
                   && negb (isEmpty_list zurl_in_specs))
  then Some (inl 1)
  else
    let sessionsMax := effectiveSessionsMax sessionsMax clientMaxconn in
    let server :=
      if negb (contains services "mongrel2")
         && (negb (isEmpty_list connmgr_in_specs)
             || negb (isEmpty_list connmgr_in_stream_specs)
             || negb (isEmpty_list connmgr_out_specs))
      then (connmgr_in_specs, connmgr_in_stream_specs, connmgr_out_specs)
      else (m2a_in_specs, m2a_in_stream_specs, m2a_out_specs) in
    let client :=
      if negb (contains services "zurl")
         && (negb (isEmpty_list connmgr_client_out_specs)
             || negb (isEmpty_list connmgr_client_out_stream_specs)
             || negb (isEmpty_list connmgr_client_in_specs))
      then (connmgr_client_out_specs, connmgr_client_out_stream_specs,
            connmgr_client_in_specs)
      else (zurl_out_specs, zurl_out_stream_specs, zurl_in_specs) in
    perWorker ← Int.div sessionsMax workerCount;
    Some (inr
      {| rl_config :=
           {| id := 0;
              clientId := "proxy_" +:+ number pid;
              serverInSpecs := server.1.1;
              serverInStreamSpecs := server.1.2;
              serverOutSpecs := server.2;
              clientOutSpecs := client.1.1;
              clientOutStreamSpecs := client.1.2;
              clientInSpecs := client.2;
              inspectSpec := handler_inspect_spec;
              acceptSpec := handler_accept_spec;
              retryInSpec := handler_retry_in_spec;
              wsControlInitSpecs := handler_ws_control_init_specs;
              wsControlStreamSpecs := handler_ws_control_stream_specs;
              statsSpec := stats_spec;
              commandSpec := command_spec;
              intServerInSpecs := intreq_in_specs;
              intServerInStreamSpecs := intreq_in_stream_specs;
              intServerOutSpecs := intreq_out_specs;
              sessionsMax := perWorker |};
         rl_routeLines := routeLines args;
         rl_routesFile := routesFile;
         rl_workerCount := workerCount;
         rl_newEventLoop := newEventLoop |}).

(** *** The per-worker configuration of [runLoop], lines 721-739 *)
Definition workerConfig (config : Configuration) (workerCount n : Z)
    : Configuration :=
  if 1 <? workerCount then
    {| id := n;
       clientId := clientId config +:+ ("-" +:+ number n);
       serverInSpecs := serverInSpecs config;
       serverInStreamSpecs := serverInStreamSpecs config;
       serverOutSpecs := serverOutSpecs config;
       clientOutSpecs := clientOutSpecs config;
       clientOutStreamSpecs := clientOutStreamSpecs config;
       clientInSpecs := clientInSpecs config;
       inspectSpec := suffixSpec (inspectSpec config) n;
       acceptSpec := suffixSpec (acceptSpec config) n;
       retryInSpec := suffixSpec (retryInSpec config) n;
       wsControlInitSpecs := suffixSpecs (wsControlInitSpecs config) n;
       wsControlStreamSpecs := suffixSpecs (wsControlStreamSpecs config) n;
       statsSpec := suffixSpec (statsSpec config) n;
       commandSpec := suffixSpec (commandSpec config) n;
       intServerInSpecs := suffixSpecs (intServerInSpecs config) n;
       intServerInStreamSpecs := suffixSpecs (intServerInStreamSpecs config) n;
       intServerOutSpecs := suffixSpecs (intServerOutSpecs config) n;
       sessionsMax := sessionsMax config |}
  else
    {| id := n;
       clientId := clientId config;
       serverInSpecs := serverInSpecs config;
       serverInStreamSpecs := serverInStreamSpecs config;
       serverOutSpecs := serverOutSpecs config;
       clientOutSpecs := clientOutSpecs config;
       clientOutStreamSpecs := clientOutStreamSpecs config;
       clientInSpecs := clientInSpecs config;
       inspectSpec := inspectSpec config;
       acceptSpec := acceptSpec config;
       retryInSpec := retryInSpec config;
       wsControlInitSpecs := wsControlInitSpecs config;
       wsControlStreamSpecs := wsControlStreamSpecs config;
       statsSpec := statsSpec config;
       commandSpec := commandSpec config;
       intServerInSpecs := intServerInSpecs config;
       intServerInStreamSpecs := intServerInStreamSpecs config;
       intServerOutSpecs := intServerOutSpecs config;
       sessionsMax := sessionsMax config |}.

(** The values [n] takes in [for(int n = 0; n < workerCount; ++n)]. *)
Definition workerIndices (workerCount : Z) : list Z := seqZ 0 workerCount.

End App.

(** ** [EngineThread] *)

Module EngineThread.
Import Qt App.


(** *** The budgets of [EngineThread::run], lines 311-333 *)
Section Budgets.
Context `{Limits}.






End Budgets.

(** *** The start barrier: [EngineThread::start] against
    [EngineThread::run] and [EngineWorker::start]

    Two threads share the mutex [m], the wait condition [w] and the
    [worker] pointer.  Each program point below is one statement of the
    source; a thread whose next statement cannot proceed (a held mutex,
    an unsignalled wait) has no step.  [QWaitCondition::wait] releases the
    mutex and blocks in one step, returns only after a wake, and holds the
    mutex again when it returns. *)

Inductive Holder := Unlocked | HeldBySupervisor | HeldByWorker.

(** Program points of the supervisor inside [start()]. *)
Inductive SupPc :=
| SLock             (* QMutexLocker locker(&m) *)
| SSpawn            (* thread = std::thread(... run() ...) *)
| SWait             (* w.wait(&m): release m and block *)
| SBlocked          (* inside w.wait, not woken yet *)
| SWoken            (* inside w.wait, woken: re-acquire m *)
| SReturn           (* return (bool)worker; locker unlocks m *)
| SDone (r : bool). (* start() has returned r *)

(** Program points of the worker thread inside [run()]. *)
Inductive WrkPc :=
| WNotStarted
| WLock             (* m.lock() *)
| WSetup            (* budgets, loop, worker = make_unique, connects, defer *)
| WExec             (* exec(): the deferred worker->start() runs *)
| WStartedWake      (* started handler: w.wakeOne() *)
| WStartedUnlock    (* started handler: m.unlock() *)
| WRunning          (* the event loop keeps running *)
| WErrorExit        (* error handler, after worker.reset(): exit(0)/quit() *)
| WErrorWake        (* error handler: w.wakeOne() *)
| WErrorUnlock      (* error handler: m.unlock() *)
| WFinished.        (* exec() has returned, run() winds down *)

Record State := {
  sup : SupPc;
  wrk : WrkPc;
  m : Holder;
  worker : bool;      (* (bool)worker *)
  loopExit : bool     (* exit/quit was requested on the worker's loop *)
}.

#[global] Instance Holder_eq_dec : EqDecision Holder.
Proof. solve_decision. Defined.
#[global] Instance SupPc_eq_dec : EqDecision SupPc.
Proof. solve_decision. Defined.
#[global] Instance WrkPc_eq_dec : EqDecision WrkPc.
Proof. solve_decision. Defined.
#[global] Instance State_eq_dec : EqDecision State.
Proof. solve_decision. Defined.

Definition init : State :=
  {| sup := SLock; wrk := WNotStarted; m := Unlocked;
     worker := false; loopExit := false |}.

Definition sup_step (s : State) : option State :=
  match sup s with
  | SLock =>
      match m s with
      | Unlocked =>
          Some {| sup := SSpawn; wrk := wrk s; m := HeldBySupervisor;
                  worker := worker s; loopExit := loopExit s |}
      | _ => None
      end
  | SSpawn =>
      match wrk s with
      | WNotStarted =>
          Some {| sup := SWait; wrk := WLock; m := m s;
                  worker := worker s; loopExit := loopExit s |}
      | _ => None
      end
  | SWait =>
      Some {| sup := SBlocked; wrk := wrk s; m := Unlocked;
              worker := worker s; loopExit := loopExit s |}
  | SBlocked => None
  | SWoken =>
      match m s with
      | Unlocked =>
          Some {| sup := SReturn; wrk := wrk s; m := HeldBySupervisor;
                  worker := worker s; loopExit := loopExit s |}
      | _ => None
      end
  | SReturn =>
      Some {| sup := SDone (worker s); wrk := wrk s; m := Unlocked;
              worker := worker s; loopExit := loopExit s |}
  | SDone _ => None
  end.

(** [w.wakeOne()]: wakes the supervisor if it is blocked in [w.wait],
    and is lost otherwise. *)
Definition wakeOne (p : SupPc) : SupPc :=
  match p with
  | SBlocked => SWoken
  | _ => p
  end.

(** [engineOk] is the result of [engine_->start(config_)]. *)
Definition wrk_step (engineOk : bool) (s : State) : option State :=
  match wrk s with
  | WNotStarted => None
  | WLock =>
      match m s with
      | Unlocked =>
          Some {| sup := sup s; wrk := WSetup; m := HeldByWorker;
                  worker := worker s; loopExit := loopExit s |}
      | _ => None
      end
  | WSetup =>
      Some {| sup := sup s; wrk := WExec; m := m s;
              worker := true; loopExit := loopExit s |}
  | WExec =>
      if engineOk
      then Some {| sup := sup s; wrk := WStartedWake; m := m s;
                   worker := worker s; loopExit := loopExit s |}
      else Some {| sup := sup s; wrk := WErrorExit; m := m s;
                   worker := false; loopExit := loopExit s |}
  | WStartedWake =>
      Some {| sup := wakeOne (sup s); wrk := WStartedUnlock; m := m s;
              worker := worker s; loopExit := loopExit s |}
  | WStartedUnlock =>
      Some {| sup := sup s; wrk := WRunning; m := Unlocked;
              worker := worker s; loopExit := loopExit s |}
  | WRunning => None
  | WErrorExit =>
      Some {| sup := sup s; wrk := WErrorWake; m := m s;
              worker := worker s; loopExit := true |}
  | WErrorWake =>
      Some {| sup := wakeOne (sup s); wrk := WErrorUnlock; m := m s;
              worker := worker s; loopExit := loopExit s |}
  | WErrorUnlock =>
      Some {| sup := sup s; wrk := WFinished; m := Unlocked;
              worker := worker s; loopExit := loopExit s |}
  | WFinished => None
  end.

(** One step of either thread. *)
Definition step (engineOk : bool) (s s' : State) : Prop :=
  sup_step s = Some s' \/ wrk_step engineOk s = Some s'.

Definition reachable (engineOk : bool) (s : State) : Prop :=
  rtc (step engineOk) init s.

(** A scheduler: run whichever thread can move, for at most [fuel]
    steps. *)
Fixpoint exec (engineOk : bool) (fuel : nat) (s : State) : State :=
  match fuel with
  | O => s
  | S fuel =>
      match sup_step s with
      | Some s' => exec engineOk fuel s'
      | None =>
          match wrk_step engineOk s with
          | Some s' => exec engineOk fuel s'
          | None => s
          end
      end
  end.

(** The states met on the way. *)
Definition states (engineOk : bool) : list State :=
  (fun n => exec engineOk n init) <$> seq 0 16.

(** The value [start()] returns, if it returns. *)
Definition start (engineOk : bool) : option bool :=
  match sup (exec engineOk 16 init) with
  | SDone r => Some r
  | _ => None
  end.

(** The supervisor is past [w.wait(&m)]. *)
Definition released (p : SupPc) : bool :=
  match p with
  | SWoken | SReturn | SDone _ => true
  | _ => false
  end.

(** The worker has signalled [started] or [error]. *)
Definition signalled (p : WrkPc) : bool :=
  match p with
  | WStartedUnlock | WRunning | WErrorUnlock | WFinished => true
  | _ => false
  end.

(** What holds in every state met: the supervisor is past the wait only
    once the worker has signalled, and a returned value is the engine's
    result and tells whether [worker] is set. *)
Definition safe (engineOk : bool) (s : State) : bool :=
  (if released (sup s) then signalled (wrk s) else true)
  && match sup s with
     | SDone r => bool_decide (r = engineOk) && bool_decide (worker s = engineOk)
     | _ => true
     end.

End EngineThread.

(** ** [App::Private::runLoop] *)

Module Supervisor.
Import Qt App.

(** Modelled from the spec: the [DomainMap] class, whose source is outside
    the embedded files.  A map is constructed from a routes file or
    empty, and [addRouteLine] adds one in-memory route line; the model
    keeps the file it reads, if any, and the lines added, in order. *)
Record DomainMap := {
  dm_fileName : option QString;
  dm_lines : list QString;
  dm_newEventLoop : bool
}.

(** [DomainMap(newEventLoop)] *)
Definition DomainMap_new (newEventLoop : bool) : DomainMap :=
  {| dm_fileName := None; dm_lines := []; dm_newEventLoop := newEventLoop |}.

(** [DomainMap(fileName, newEventLoop)] *)
Definition DomainMap_fromFile (fileName : QString) (newEventLoop : bool)
    : DomainMap :=
  {| dm_fileName := Some fileName; dm_lines := [];
     dm_newEventLoop := newEventLoop |}.

Definition addRouteLine (d : DomainMap) (line : QString) : DomainMap :=
  {| dm_fileName := dm_fileName d; dm_lines := (dm_lines d ++ [line])%list;
     dm_newEventLoop := dm_newEventLoop d |}.

(** Calls that leave the embedded files, in the order they are made.
    Threads are named by the [id] of their configuration. *)
Inductive Action :=
| log_info (msg : string)
| log_debug (msg : string)
| log_rotate
| DomainMap_reload
| ProcessQuit_cleanup
| EngineThread_start (id : Z)          (* new EngineThread; t->start() *)
| EngineThread_stop (id : Z)           (* t->stop() *)
| EngineThread_routesChanged (id : Z)  (* t->routesChanged() *)
| EngineThread_delete (id : Z)         (* delete t: stop() and join *)
| EventLoop_exit (code : Z)            (* loop->exit(code) *)
| QCoreApplication_exit (code : Z).

(** Actions that end the process or tear a worker thread down. *)
Definition terminates (a : Action) : bool :=
  match a with
  | ProcessQuit_cleanup | EngineThread_stop _ | EngineThread_delete _
  | EventLoop_exit _ | QCoreApplication_exit _ => true
  | _ => false
  end.

(** The variables the closures of [runLoop] capture. [exitCode] is the
    code handed to the main loop, which [exec()] returns. *)
Record State := {
  domainMap : option DomainMap;
  threads : list Z;
  exitCode : option Z;
  log : list Action
}.

Definition emit (st : State) (acts : list Action) : State :=
  {| domainMap := domainMap st; threads := threads st;
     exitCode := exitCode st; log := (log st ++ acts)%list |}.

(** [if(newEventLoop) loop->exit(code); else QCoreApplication::exit(code);] *)
Definition exit_ (newEventLoop : bool) (code : Z) (st : State) : State :=
  {| domainMap := domainMap st; threads := threads st;
     exitCode := Some code;
     log := (log st ++ [if newEventLoop then EventLoop_exit code
                        else QCoreApplication_exit code])%list |}.

(** [for(EngineThread *t : threads) delete t; threads.clear();] *)
Definition deleteThreads (st : State) : State :=
  {| domainMap := domainMap st; threads := [];
     exitCode := exitCode st;
     log := (log st ++ (EngineThread_delete <$> threads st))%list |}.

(** Lines 677-684. *)
Definition makeDomainMap (routeLines : QStringList) (routesFile : QString)
    (newEventLoop : bool) : DomainMap :=
  if negb (isEmpty_list routeLines)
  then foldl addRouteLine (DomainMap_new newEventLoop) routeLines
  else DomainMap_fromFile routesFile newEventLoop.

(** The [domainMap->changed] handler. *)
Definition on_changed (st : State) : State :=
  emit st (EngineThread_routesChanged <$> threads st).

(** The [ProcessQuit::quit] handler. *)
Definition on_quit (newEventLoop : bool) (st : State) : State :=
  let st := emit st [log_info "stopping..."; ProcessQuit_cleanup] in
  let st := emit st (EngineThread_stop <$> threads st) in
  let st := deleteThreads st in
  let st := emit st [log_debug "stopped"] in
  exit_ newEventLoop 0 st.

(** The [ProcessQuit::hup] handler. *)
Definition on_hup (st : State) : State :=
  emit st [log_info "reloading"; log_rotate; DomainMap_reload].

Section Startup.
(** The result of [Engine::start] for a worker's configuration. *)
Context (engineStart : Configuration -> bool).

(** The loop of lines 719-760 over the remaining indices [ns]; the
    flag tells whether the loop ran to its end. *)
Fixpoint startWorkers (a : RunLoopArgs) (ns : list Z) (st : State)
    : option (State * bool) :=
  match ns with
  | [] => Some (st, true)
  | n :: ns =>
      let wconfig := workerConfig (rl_config a) (rl_workerCount a) n in
      let st := emit st [EngineThread_start n] in
      started ← EngineThread.start (engineStart wconfig);
      if negb started then
        let st := emit st [EngineThread_delete n] in
        let st := deleteThreads st in
        Some (exit_ (rl_newEventLoop a) 1 st, false)
      else
        startWorkers a ns
          {| domainMap := domainMap st;
             threads := (threads st ++ [n])%list;
             exitCode := exitCode st; log := log st |}
  end.

(** The closure deferred by [runLoop]. *)
Definition startup (a : RunLoopArgs) : option State :=
  let st :=
    {| domainMap := Some (makeDomainMap (rl_routeLines a) (rl_routesFile a)
                                        (rl_newEventLoop a));
       threads := []; exitCode := None; log := [] |} in
  '(st, completed) ← startWorkers a (workerIndices (rl_workerCount a)) st;
  Some (if completed : bool then emit st [log_info "started"] else st).
End Startup.

End Supervisor.

(** ** [src/handler/controlrequest.cpp] *)

Module ControlRequest.
Import Qt.

Inductive QMetaType :=
| UnknownType | Bool | Int | QString_ | QByteArray_ | QVariantList
| QVariantHash | CidSet_.

#[warnings="-register-all"] Inductive QVariant :=
| VInvalid
| VBool (b : bool)
| VInt (i : Z)
| VString (s : QString)
| VByteArray (b : QByteArray)
| VList (l : list QVariant)
| VCidSet (s : gset QString).

Definition typeId (v : QVariant) : QMetaType :=
  match v with
  | VInvalid => UnknownType
  | VBool _ => Bool
  | VInt _ => Int
  | VString _ => QString_
  | VByteArray _ => QByteArray_
  | VList _ => QVariantList
  | VCidSet _ => CidSet_
  end.

Definition toList (v : QVariant) : list QVariant :=
  match v with VList l => l | _ => [] end.

Definition toByteArray (v : QVariant) : QByteArray :=
  match v with VByteArray b => b | _ => "" end.

Definition is_QVariantList (t : QMetaType) : bool :=
  match t with QVariantList => true | _ => false end.

Definition is_QByteArray (t : QMetaType) : bool :=
  match t with QByteArray_ => true | _ => false end.

(** What [ZrpcRequest] reports when [finished] fires. [errorCondition]
    is the integer value of the request's error enumeration. *)
Record Reply := {
  success : bool;
  result : QVariant;
  errorCondition : Z
}.

(** [Deferred::setFinished(ok, value)]; the value defaults to an
    invalid [QVariant]. *)
Record DeferredResult := {
  ok : bool;
  value : QVariant
}.

Definition setFinished (ok : bool) (value : QVariant) : DeferredResult :=
  {| ok := ok; value := value |}.

(** [req->start(method, args)] *)
Record Call := {
  method : QString;
  args : gmap string QVariant
}.

Section ConnCheck.
Context `{Utf8}.

(** [ConnCheck::ConnCheck]: the call that is started. *)
Definition ConnCheck_start (cids : gset QString) : Call :=
  let vcids :=
    foldl (fun vcids cid => (vcids ++ [VByteArray (toUtf8 cid)])%list)
          [] (elements cids) in
  {| method := "conncheck"; args := <["ids" := VList vcids]> ∅ |}.

(** The [foreach] of [req_finished]: [None] when an element is not a
    byte array. *)
Fixpoint collect (result : list QVariant) (out : gset QString)
    : option (gset QString) :=
  match result with
  | [] => Some out
  | vcid :: result =>
      if negb (is_QByteArray (typeId vcid)) then None
      else collect result (out ∪ {[ fromUtf8 (toByteArray vcid) ]})
  end.

(** [ConnCheck::req_finished] *)
Definition req_finished (req : Reply) : DeferredResult :=
  if success req then
    let vresult := result req in
    if negb (is_QVariantList (typeId vresult)) then setFinished false VInvalid
    else
      match collect (toList vresult) ∅ with
      | None => setFinished false VInvalid
      | Some out => setFinished true (VCidSet out)
      end
  else setFinished false (VInt (errorCondition req)).
End ConnCheck.

End ControlRequest.

(** ** The update checker ([updater.cpp]) *)

Module Updater.
Import Qt.

Definition MAX_RESPONSE_SIZE : Z := 50000.

(** The [ZhttpRequest] as [req_readyRead] sees it: the response bytes
    buffered and not yet read, whether the response is complete, and
    its status code. *)
Record ZhttpRequest := {
  buffered : QByteArray;
  isFinished : bool;
  responseCode : Z
}.

Definition bytesAvailable (r : ZhttpRequest) : Z :=
  Z.of_nat (String.length (buffered r)).

(** The ways [req_readyRead] leaves the request, up to the parsing of
    the body. *)
Inductive Outcome :=
| ResponseTooLarge            (* "check failed, response too large" *)
| Waiting                     (* returned, request kept *)
| BadResponseCode (code : Z)  (* "check failed, response code: %d" *)
| BodyRead (rawBody : QByteArray).

(** [req_readyRead], lines 171-191.  The second component is [req]
    afterwards: [None] once [cleanupRequest] has run. *)
Definition req_readyRead (req : ZhttpRequest)
    : Outcome * option ZhttpRequest :=
  if MAX_RESPONSE_SIZE <? bytesAvailable req then (ResponseTooLarge, None)
  else if negb (isFinished req) then (Waiting, Some req)
  else if negb (responseCode req =? 200)
  then (BadResponseCode (responseCode req), None)
  else (BodyRead (buffered req), None).

End Updater.

(** ** Notions used to state the properties *)

Module Stating.
Import Qt App Supervisor.

(** The configurations [runLoop] creates its worker threads with. *)
Definition workerConfigs (a : RunLoopArgs) : list Configuration :=
workerConfig (rl_config a) (rl_workerCount a)
  <$> workerIndices (rl_workerCount a).

(** The session limits of all workers, added up. *)
Definition sessionsSum (a : RunLoopArgs) : Z :=
foldr Z.add 0 (sessionsMax <$> workerConfigs a).

(** The total session limit [run] derives from the settings. *)
Definition sessionsTotal (settings : Settings) : Z :=
effectiveSessionsMax
  (value_int settings "proxy/max_open_requests" (-1))
  (value_int settings "runner/client_maxconn" 50000).

(** The list-valued endpoint specs of a configuration. *)
Definition specLists (config : Configuration) : list QStringList :=
  [serverInSpecs config; serverInStreamSpecs config; serverOutSpecs config;
   clientOutSpecs config; clientOutStreamSpecs config; clientInSpecs config;
   wsControlInitSpecs config; wsControlStreamSpecs config;
   intServerInSpecs config; intServerInStreamSpecs config;
   intServerOutSpecs config].

(** The engine of worker [n] starts. *)
Definition starts (engineStart : Configuration -> bool) (a : RunLoopArgs)
  (n : Z) : Prop :=
engineStart (workerConfig (rl_config a) (rl_workerCount a) n) = true.

(** Suffixing every IPC entry of a list, as the specification words it. *)
Definition suffixEach (l : QStringList) (i : Z) : QStringList :=
(fun s => suffixSpec s i) <$> l.

End Stating.

(** ** Concrete inputs *)

Module Examples.
Import Qt App EngineThread Supervisor.

(** Paths as on a Unix system. *)
Definition unix_paths : QFileInfo :=
{| isRelative := fun path => negb (startsWith path "/");
   filePath := fun dir path => dir +:+ "/" +:+ path |}.

(** A settings file with the connection-manager endpoints set, and the
  given integer and string-list entries besides. *)
Definition settings_with (ints : list (string * Z))
  (lists : list (string * QStringList)) : Settings :=
{| intValues := list_to_map ints;
   stringValues :=
     list_to_map [("proxy/routesfile", "routes");
                  ("proxy/handler_inspect_spec", "ipc://inspect");
                  ("proxy/stats_spec", "tcp://127.0.0.1:5560")];
   listValues :=
     list_to_map
       (lists ++
        [("proxy/connmgr_in_specs", ["ipc://in"; ""]);
         ("proxy/connmgr_in_stream_specs", ["ipc://in-stream"]);
         ("proxy/connmgr_out_specs", ["ipc://out"]);
         ("proxy/connmgr_client_out_specs", ["ipc://client-out"]);
         ("proxy/connmgr_client_out_stream_specs", ["ipc://client-out-stream"]);
         ("proxy/connmgr_client_in_specs", ["ipc://client-in"])]);
   boolValues := ∅ |}.


(** Two workers, 101 sessions in total. *)
Definition two_workers : Settings :=
settings_with [("proxy/max_open_requests", 101); ("proxy/workers", 2)] [].

(** A control endpoint list with two IPC entries. *)
Definition two_ipc_specs : Settings :=
settings_with [("proxy/workers", 2)]
  [("proxy/handler_ws_control_init_specs", ["ipc://ws-a"; "ipc://ws-b"])].

(** The configuration shared by the workers in the examples. *)
Definition base_config : Configuration :=
{| id := 0;
   clientId := "proxy_1";
   serverInSpecs := ["ipc://in"];
   serverInStreamSpecs := ["ipc://in-stream"];
   serverOutSpecs := ["ipc://out"];
   clientOutSpecs := ["ipc://client-out"];
   clientOutStreamSpecs := ["ipc://client-out-stream"];
   clientInSpecs := ["ipc://client-in"];
   inspectSpec := "ipc://inspect";
   acceptSpec := "ipc://accept";
   retryInSpec := "tcp://127.0.0.1:5562";
   wsControlInitSpecs := ["ipc://ws-a"; "ipc://ws-b"];
   wsControlStreamSpecs := ["ipc://ws-stream"];
   statsSpec := "tcp://127.0.0.1:5560";
   commandSpec := "";
   intServerInSpecs := ["tcp://127.0.0.1:5563"];
   intServerInStreamSpecs := [];
   intServerOutSpecs := ["ipc://intreq-out"];
   sessionsMax := 50 |}.

(** Three workers on the new event loop. *)
Definition three_workers : RunLoopArgs :=
{| rl_config := base_config; rl_routeLines := [];
   rl_routesFile := "/etc/pushpin/routes"; rl_workerCount := 3;
   rl_newEventLoop := true |}.

(** The engine of worker 1 does not start, the others do. *)
Definition second_fails (config : Configuration) : bool :=
negb (id config =? 1).

(** A command line with two [--route] options. *)
Definition route_parser : QCommandLineParser :=
{| parseOk := true; errorText := "";
   parsed := [("route", "* localhost:8080"); ("verbose", "");
              ("route", "example.com backend:80")] |}.

(** No text is a number: enough for command lines without [--loglevel]. *)
Definition no_numbers : ToInt := fun _ => None.

(** A response body of [n] bytes. *)
Fixpoint body (n : nat) : QByteArray :=
match n with
| O => ""
| S n => "x" +:+ body n
end.

(** Bytes and text coincide on ASCII. *)
Definition ascii_utf8 : Utf8 := {| toUtf8 := fun s => s; fromUtf8 := fun b => b |}.


End Examples.

(** ** [parse_xffRule] of [src/proxy/app.cpp] *)

Module Xff.
Import Qt App.

(** [XffRule] of [xffrule.h]: how many forwarded addresses to keep, and
    whether to append the peer's own. *)
Record XffRule := {
  truncate : Z;
  append : bool
}.

(** [QString::mid(n)]: the text from position [n] on. *)
Fixpoint mid (s : QString) (n : nat) : QString :=
  match n, s with
  | O, _ => s
  | S n, String _ s => mid s n
  | S _, EmptyString => ""
  end.

Section Parse.
Context `{ToInt}.

(** The [foreach] of [parse_xffRule], with [out] as it stands; an entry
    ["truncate:"] whose number does not parse returns at once. *)
Fixpoint parse_xffRule_loop (out : XffRule) (l : QStringList) : XffRule :=
  match l with
  | [] => out
  | s :: l =>
      if startsWith s "truncate:" then
        match toInt (mid s 9) with
        | None => out
        | Some x =>
            parse_xffRule_loop {| truncate := x; append := append out |} l
        end
      else if bool_decide (s = "append") then
        parse_xffRule_loop {| truncate := truncate out; append := true |} l
      else parse_xffRule_loop out l
  end.

(** [parse_xffRule]; [init] is the default-constructed [XffRule]. *)
Definition parse_xffRule (init : XffRule) (l : QStringList) : XffRule :=
  parse_xffRule_loop init l.

(** A ["truncate:"] entry whose number does not parse. *)
Definition malformed (s : QString) : Prop :=
  startsWith s "truncate:" = true /\ toInt (mid s 9) = None.

(** The number of a well-formed ["truncate:"] entry. *)
Definition truncation (s : QString) : option Z :=
  if startsWith s "truncate:" then toInt (mid s 9) else None.

End Parse.

(** Decimal numbers of at most one digit: enough for the examples. *)
Definition one_digit : ToInt := fun s =>
  match s with
  | String c EmptyString =>
      let n := Z.of_nat (Ascii.nat_of_ascii c) - 48 in
      if (0 <=? n) && (n <=? 9) then Some n else None
  | _ => None
  end.

End Xff.

(** ** Notions used to state the further properties *)

Module Observing.
Import Qt App Supervisor.

(** The single-valued endpoint specs that [runLoop] specialises. *)
Definition singleSpecs (config : Configuration) : list QString :=
  [inspectSpec config; acceptSpec config; retryInSpec config;
   statsSpec config; commandSpec config].

(** The list-valued endpoint specs that [runLoop] specialises. *)
Definition listSpecs (config : Configuration) : list QStringList :=
  [wsControlInitSpecs config; wsControlStreamSpecs config;
   intServerInSpecs config; intServerInStreamSpecs config;
   intServerOutSpecs config].

(** The threads a log shows as started, stopped and deleted, in order. *)
Definition started (acts : list Action) : list Z :=
  omap (fun a => match a with EngineThread_start n => Some n | _ => None end)
       acts.

Definition stopped (acts : list Action) : list Z :=
  omap (fun a => match a with EngineThread_stop n => Some n | _ => None end)
       acts.

Definition deleted (acts : list Action) : list Z :=
  omap (fun a => match a with EngineThread_delete n => Some n | _ => None end)
       acts.

End Observing.

(** ** Notions used to state the properties of [run] *)

Module Endpoints.
Import Qt App.

(** A list setting without its empty entries. *)
Definition nonblank (settings : Settings) (key : string) : QStringList :=
  filter (fun s => s <> "") (value_list settings key).




(** A command line with a log level that is not a number, and the verbose
    flag. *)
Definition bad_loglevel : QCommandLineParser :=
  {| parseOk := true; errorText := "";
     parsed := [("loglevel", "x"); ("verbose", "")] |}.

(** A command line with a log level and the verbose flag. *)
Definition verbose_loglevel : QCommandLineParser :=
  {| parseOk := true; errorText := "";
     parsed := [("loglevel", "1"); ("verbose", ""); ("config", "a.conf");
                ("config", "b.conf")] |}.

End Endpoints.

(** ** [EngineThread::~EngineThread]: [stop()] and [thread.join()] *)

Module Teardown.
Import EngineThread.

(** Program points of the supervisor inside the destructor. *)
Inductive DelPc :=
| DLock      (* stop(): QMutexLocker locker(&m) *)
| DCheck     (* stop(): if(worker) worker->deferCall.defer(...) *)
| DUnlock    (* stop() returns: the locker unlocks m *)
| DJoin      (* thread.join() *)
| DDone.     (* the destructor has returned *)

(** Program points of the worker thread once [start()] has returned. *)
Inductive RunPc :=
| RLoop      (* exec() runs the event loop *)
| RReset     (* the deferred worker->stop() has run engine_.reset() and
                emitted stopped: worker.reset() *)
| RExit      (* stopped handler: loop->exit(0) or qloop->quit() *)
| RFinished. (* exec() has returned, run() has wound down *)

Record State := {
  del : DelPc;
  thread : RunPc;
  m : Holder;
  worker : bool;     (* (bool)worker *)
  engine : bool;     (* (bool)engine_ of the worker *)
  deferred : bool;   (* a call to worker->stop() is queued *)
  loopExit : bool
}.

#[global] Instance DelPc_eq_dec : EqDecision DelPc.
Proof. solve_decision. Defined.
#[global] Instance RunPc_eq_dec : EqDecision RunPc.
Proof. solve_decision. Defined.
#[global] Instance State_eq_dec : EqDecision State.
Proof. solve_decision. Defined.

(** The threads as [start()] leaves them when it returns [r]: after a
    successful start the worker's loop runs and [worker] is set; after a
    failed one the loop has been left and [worker] is null. *)
Definition after_start (r : bool) : State :=
  {| del := DLock; thread := if r then RLoop else RFinished; m := Unlocked;
     worker := r; engine := r; deferred := false; loopExit := negb r |}.

Definition del_step (s : State) : option State :=
  match del s with
  | DLock =>
      match m s with
      | Unlocked =>
          Some {| del := DCheck; thread := thread s; m := HeldBySupervisor;
                  worker := worker s; engine := engine s;
                  deferred := deferred s; loopExit := loopExit s |}
      | _ => None
      end
  | DCheck =>
      Some {| del := DUnlock; thread := thread s; m := m s;
              worker := worker s; engine := engine s;
              deferred := if worker s then true else deferred s;
              loopExit := loopExit s |}
  | DUnlock =>
      Some {| del := DJoin; thread := thread s; m := Unlocked;
              worker := worker s; engine := engine s;
              deferred := deferred s; loopExit := loopExit s |}
  | DJoin =>
      match thread s with
      | RFinished =>
          Some {| del := DDone; thread := thread s; m := m s;
                  worker := worker s; engine := engine s;
                  deferred := deferred s; loopExit := loopExit s |}
      | _ => None
      end
  | DDone => None
  end.

Definition thread_step (s : State) : option State :=
  match thread s with
  | RLoop =>
      if deferred s
      then Some {| del := del s; thread := RReset; m := m s;
                   worker := worker s; engine := false;
                   deferred := false; loopExit := loopExit s |}
      else None
  | RReset =>
      Some {| del := del s; thread := RExit; m := m s;
              worker := false; engine := engine s;
              deferred := deferred s; loopExit := loopExit s |}
  | RExit =>
      Some {| del := del s; thread := RFinished; m := m s;
              worker := worker s; engine := engine s;
              deferred := deferred s; loopExit := true |}
  | RFinished => None
  end.

(** One step of either thread. *)
Definition step (s s' : State) : Prop :=
  del_step s = Some s' \/ thread_step s = Some s'.

Definition successors (s : State) : list State :=
  option_list (del_step s) ++ option_list (thread_step s).

(** The states within [n] steps of the states [l]. *)
Fixpoint explore (n : nat) (l : list State) : list State :=
  match n with
  | O => l
  | S n => explore n (remove_dups (l ++ (l ≫= successors)))
  end.

Definition states (r : bool) : list State := explore 7 [after_start r].



End Teardown.

(** ** The update checker's state, requests and reports ([updater.cpp]) *)

Module UpdaterPrivate.
Import Qt Updater.

Definition CHECK_INTERVAL : Z := 24 * 60 * 60 * 1000.
Definition REPORT_INTERVAL : Z := 15 * 60 * 1000.

Inductive Mode := CheckMode | ReportMode.

(** [Updater::Report]; its members are [int]s. *)
Record Report := {
  connectionsMax : Z;
  connectionsMinutes : Z;
  messagesReceived : Z;
  messagesSent : Z;
  ops : Z
}.

(** What differs between platforms and hosts: [getOs()], the bits of a
    pointer that [getArch()] prints, and the hashed host name. *)
Class Platform := {
  getOs : QString;
  pointerBits : Z;
  hashedHost : QString
}.

(** [Updater::Private], with the requests started so far, each as the
    items of its query. *)
Record Private := {
  mode : Mode;
  currentVersion : QString;
  org : QString;
  req : bool;                    (* (bool)req *)
  report : Report;
  lastLogTime : option Z;        (* milliseconds; [None] is a null time *)
  started : list (list (QString * QString))
}.

(** The report as the constructor and [doRequest] leave it. *)
Definition stale : Report :=
  {| connectionsMax := -1; connectionsMinutes := 0; messagesReceived := 0;
     messagesSent := 0; ops := 0 |}.

(** [Updater::setReport]: update the current report data. *)
Definition setReport (d : Private) (report' : Report) : option Private :=
  let connectionsMax' :=
    if (connectionsMax (report d) =? -1)
       || (connectionsMax (report d) <? connectionsMax report')
    then connectionsMax report' else connectionsMax (report d) in
  connectionsMinutes' ←
    Int.add (connectionsMinutes (report d)) (connectionsMinutes report');
  messagesReceived' ←
    Int.add (messagesReceived (report d)) (messagesReceived report');
  messagesSent' ← Int.add (messagesSent (report d)) (messagesSent report');
  ops' ← Int.add (ops (report d)) (ops report');
  Some {| mode := mode d; currentVersion := currentVersion d; org := org d;
          req := req d;
          report := {| connectionsMax := connectionsMax';
                       connectionsMinutes := connectionsMinutes';
                       messagesReceived := messagesReceived';
                       messagesSent := messagesSent'; ops := ops' |};
          lastLogTime := lastLogTime d; started := started d |}.

(** [cleanupRequest] *)
Definition cleanupRequest (d : Private) : Private :=
  {| mode := mode d; currentVersion := currentVersion d; org := org d;
     req := false; report := report d; lastLogTime := lastLogTime d;
     started := started d |}.

Section WithPlatform.
Context `{Platform}.

(** The query items of [doRequest], in order. *)
Definition query (d : Private) : list (QString * QString) :=
  [("package", "pushpin"); ("version", currentVersion d)]
  ++ (if negb (isEmpty getOs) then [("os", getOs)] else [])
  ++ (let arch := number pointerBits in
      if negb (isEmpty arch) then [("arch", arch)] else [])
  ++ (if negb (isEmpty (org d)) then [("org", org d)] else [])
  ++ match mode d with
     | ReportMode =>
         let cmax :=
           if 0 <? connectionsMax (report d) then connectionsMax (report d)
           else 0 in
         [("id", hashedHost); ("cmax", number cmax);
          ("cminutes", number (connectionsMinutes (report d)));
          ("recv", number (messagesReceived (report d)));
          ("sent", number (messagesSent (report d)));
          ("ops", number (ops (report d)))]
     | CheckMode => []
     end.

(** [doRequest]: a request is created and started with the query; in
    report mode the report is made stale. *)
Definition doRequest (d : Private) : Private :=
  {| mode := mode d; currentVersion := currentVersion d; org := org d;
     req := true;
     report := match mode d with ReportMode => stale | CheckMode => report d end;
     lastLogTime := lastLogTime d;
     started := started d ++ [query d] |}.

(** [timer_timeout] *)
Definition timer_timeout (d : Private) : Private :=
  if negb (req d) then doRequest d else d.

End WithPlatform.

(** [req_error] *)
Definition req_error (d : Private) : Private := cleanupRequest d.

(** [req_readyRead] on the response as it stands, up to the reading of the
    body: the request is cleaned up as [Updater.req_readyRead] tells. *)
Definition on_readyRead (d : Private) (response : ZhttpRequest)
    : Outcome * Private :=
  match req_readyRead response with
  | (outcome, Some _) => (outcome, d)
  | (outcome, None) => (outcome, cleanupRequest d)
  end.

(** Lines 214-224 of [req_readyRead]: the announcement of a new version
    [version] with [link] at time [now]; the result is [lastLogTime]
    afterwards and the message logged, if any. *)
Definition announce (version link : QString) (now : Z)
    (lastLogTime : option Z) : option Z * option QString :=
  if negb (isEmpty version)
     && match lastLogTime with
        | None => true
        | Some last => last + (CHECK_INTERVAL - REPORT_INTERVAL ÷ 2) <=? now
        end
  then
    let msg := "New version of Pushpin available! version=" +:+ version in
    let msg := if negb (isEmpty link) then msg +:+ (" " +:+ link) else msg in
    (Some now, Some msg)
  else (lastLogTime, None).

(** The times at which a sequence of update responses, each with its time,
    version and link, is announced. *)
Fixpoint announcements (lastLogTime : option Z)
    (responses : list (Z * QString * QString)) : list Z :=
  match responses with
  | [] => []
  | (now, version, link) :: responses =>
      match announce version link now lastLogTime with
      | (last, Some _) => now :: announcements last responses
      | (last, None) => announcements last responses
      end
  end.

(** The reports [rs] set one after the other. *)
Fixpoint setReports (d : Private) (rs : list Report) : option Private :=
  match rs with
  | [] => Some d
  | r :: rs => d' ← setReport d r; setReports d' rs
  end.

(** What happens to the updater: the timer fires, the request signals
    [readyRead] with the response as it stands, or it signals an error. *)
Inductive Event :=
| Timeout
| ReadyRead (response : ZhttpRequest)
| Error.

(** The request is given up or done with by the event. *)
Definition ends_request (e : Event) : bool :=
  match e with
  | Timeout => false
  | ReadyRead response =>
      match req_readyRead response with
      | (_, None) => true
      | (_, Some _) => false
      end
  | Error => true
  end.

(** Successive announcements are at least [window] apart. *)
Fixpoint spaced (window : Z) (prev : option Z) (ts : list Z) : Prop :=
  match ts with
  | [] => True
  | t :: ts =>
      match prev with
      | Some p => p + window <= t
      | None => True
      end /\ spaced window (Some t) ts
  end.

(** The handlers run on a sequence of events; the signals of a request
    reach the updater only while it has the request. *)
Definition handle `{Platform} (d : Private) (e : Event) : Private :=
  match e with
  | Timeout => timer_timeout d
  | ReadyRead response => if req d then (on_readyRead d response).2 else d
  | Error => if req d then req_error d else d
  end.

(** A Linux host with 64-bit pointers. *)
Definition linux64 : Platform :=
  {| getOs := "linux"; pointerBits := 64; hashedHost := "0a4d55a8d778e5022fab701977c5d840bbc486d0" |}.

Definition reporting : Private :=
  {| mode := ReportMode; currentVersion := "1.41.0"; org := "";
     req := false;
     report := {| connectionsMax := 7; connectionsMinutes := 30;
                  messagesReceived := 5; messagesSent := 9; ops := 14 |};
     lastLogTime := None; started := [] |}.

End UpdaterPrivate.

(* ===================================================================== *)
(** * Part II: properties                                                 *)
(* ===================================================================== *)

Import Qt App EngineThread Supervisor Stating.

(** ** [trimlist] *)

Example trimlist_ex :
  trimlist [""; "a"; ""; ""; "b"; ""] = Some ["a"; "b"].
Proof. reflexivity. Qed.

Lemma isEmpty_true (s : QString) : isEmpty s = true <-> s = "".
Proof. destruct s; simpl; split; congruence. Qed.

Lemma isEmpty_false (s : QString) : isEmpty s = false <-> s <> "".
Proof. destruct s; simpl; split; congruence. Qed.

Lemma at_lookup {A} (l : list A) (n : Z) (x : A) :
  at_ l n = Some x -> 0 <= n /\ l !! Z.to_nat n = Some x.
Proof.
  unfold at_. destruct (n <? 0) eqn:Hn; [discriminate|].
  apply Z.ltb_ge in Hn. auto.
Qed.

Lemma at_None {A} (l : list A) (n : Z) :
  at_ l n = None -> n < 0 \/ Z.of_nat (length l) <= n.
Proof.
  unfold at_. destruct (n <? 0) eqn:Hn.
  - apply Z.ltb_lt in Hn. auto.
  - apply Z.ltb_ge in Hn. intros E%lookup_ge_None. lia.
Qed.

(** At the loop head the entries before [n] are kept as they are and the
    rest is still to be filtered. *)
Lemma trimlist_loop_spec (l : QStringList) (n : Z) :
  0 <= n ->
  trimlist_loop l n
  = Some (take (Z.to_nat n) l ++ filter (fun s => s <> "") (drop (Z.to_nat n) l)).
Proof.
  funelim (trimlist_loop l n); intros Hn0.
  - (* the loop ends *)
    unfold count in *.
    rewrite take_ge, drop_ge by lia. by rewrite app_nil_r.
  - (* the index is valid under the loop guard *)
    exfalso.
    match goal with E : at_ _ _ = None |- _ => pose proof (at_None _ _ E) end.
    unfold count in *. lia.
  - (* an empty entry is removed, [n] stays *)
    match goal with E : at_ _ _ = Some _ |- _ =>
      destruct (at_lookup _ _ _ E) as [_ Hl] end.
    match goal with E : isEmpty _ = true |- _ =>
      pose proof (proj1 (isEmpty_true _) E) as Hempty end.
    match goal with IH : _ -> trimlist_loop _ _ = _ |- _ =>
      rewrite IH by lia end.
    replace (Z.to_nat (n - 1 + 1)) with (Z.to_nat n) by lia.
    unfold removeAt. f_equal.
    rewrite (drop_S _ _ _ Hl), filter_cons_False by (intros ?; congruence).
    apply lookup_lt_Some in Hl.
    rewrite delete_take_drop.
    rewrite take_app_length', drop_app_length' by (rewrite length_take; lia).
    done.
  - (* a non-empty entry is kept, [n] advances *)
    match goal with E : at_ _ _ = Some _ |- _ =>
      destruct (at_lookup _ _ _ E) as [_ Hl] end.
    match goal with E : isEmpty _ = false |- _ =>
      pose proof (proj1 (isEmpty_false _) E) as Hfull end.
    match goal with IH : _ -> trimlist_loop _ _ = _ |- _ =>
      rewrite IH by lia end.
    replace (Z.to_nat (n + 1)) with (S (Z.to_nat n)) by lia.
    f_equal.
    rewrite (take_S_r _ _ _ Hl), (drop_S _ _ _ Hl), filter_cons_True by done.
    by rewrite <- app_assoc.
Qed.

Lemma trimlist_spec (l : QStringList) :
  trimlist l = Some (filter (fun s => s <> "") l).
Proof. unfold trimlist. by rewrite trimlist_loop_spec. Qed.

Lemma trimmed_spec (settings : Settings) (key : string) :
  trimmed settings key = Some (filter (fun s => s <> "") (value_list settings key)).
Proof. apply trimlist_spec. Qed.

(** ** [run]: what reaches [runLoop] *)

Lemma div_Some (a b q : Z) :
  Int.div a b = Some q -> b <> 0 /\ q = a ÷ b.
Proof.
  unfold Int.div, Int.checked.
  destruct (b =? 0) eqn:Hb; [discriminate|].
  apply Z.eqb_neq in Hb. destruct (Int.in_range _); naive_solver.
Qed.

Lemma run_inr `{QFileInfo} (settings : Settings) (args : ArgsData) (pid : Z)
    (configDir : QString) (a : RunLoopArgs) :
  run settings args pid configDir = Some (inr a) ->
  Int.div (sessionsTotal settings) (value_int settings "proxy/workers" 1)
    = Some (sessionsMax (rl_config a))
  /\ rl_workerCount a = value_int settings "proxy/workers" 1
  /\ rl_routeLines a = routeLines args
  /\ rl_routesFile a =
       (let f := value_string settings "proxy/routesfile" in
        if isRelative f then filePath configDir f else f)
  /\ rl_newEventLoop a = value_bool settings "proxy/new_event_loop" false.
Proof.
  unfold run, sessionsTotal. rewrite !trimmed_spec. cbn [mbind option_bind].
  repeat match goal with
         | |- context [if ?b then Some (inl 1) else _] => destruct b
         end; try discriminate.
  destruct (Int.div _ _) as [q|] eqn:Hq; [|discriminate].
  cbn [mbind option_bind]. intros [= <-]. cbn. done.
Qed.

Lemma filter_no_empty (l : QStringList) : "" ∉ filter (fun s => s <> "") l.
Proof. by intros [? _]%list_elem_of_filter. Qed.

Lemma app_no_empty (l k : QStringList) : "" ∉ l -> "" ∉ k -> "" ∉ l ++ k.
Proof. intros Hl Hk [?|?]%elem_of_app; done. Qed.

(** C10. [trimlist] always returns, and returns the list with exactly its
    empty strings removed: the non-empty entries are all kept, in their
    order.  So is every list setting that [run] trims, and no endpoint spec
    list of the configuration handed to [runLoop] has an empty entry. *)
Theorem trimlist_removes_exactly_empty `{QFileInfo} :
  (forall l : QStringList, trimlist l = Some (filter (fun s => s <> "") l))
  /\ (forall (settings : Settings) (key : string),
        trimmed settings key
        = Some (filter (fun s => s <> "") (value_list settings key)))
  /\ (forall settings args pid configDir a,
        run settings args pid configDir = Some (inr a) ->
        Forall (fun l => "" ∉ l) (specLists (rl_config a))).
Proof.
  split; [apply trimlist_spec|]. split; [apply trimmed_spec|].
  intros settings args pid configDir a.
  unfold run. rewrite !trimmed_spec. cbn [mbind option_bind].
  repeat match goal with
         | |- context [if ?b then Some (inl 1) else _] => destruct b
         end; try discriminate.
  destruct (Int.div _ _) as [q|]; [|discriminate].
  cbn [mbind option_bind]. intros [= <-].
  unfold specLists. cbn [rl_config serverInSpecs serverInStreamSpecs
    serverOutSpecs clientOutSpecs clientOutStreamSpecs clientInSpecs
    wsControlInitSpecs wsControlStreamSpecs intServerInSpecs
    intServerInStreamSpecs intServerOutSpecs].
  repeat match goal with
         | |- context [if ?b then (_, _, _) else _] => destruct b
         end;
    cbn [fst snd]; repeat constructor;
    auto using filter_no_empty, app_no_empty.
Qed.

Lemma trimlist_removes_exactly_empty_witness :
  exists a,
    @run Examples.unix_paths Examples.two_workers ArgsData_init 1 "/etc/pushpin"
      = Some (inr a)
    /\ serverInSpecs (rl_config a) = ["ipc://in"]
    /\ Forall (fun l => "" ∉ l) (specLists (rl_config a)).
Proof.
  eexists. split; [vm_compute; reflexivity|]. split; [reflexivity|].
  apply (proj2 (proj2 (@trimlist_removes_exactly_empty Examples.unix_paths))
           Examples.two_workers ArgsData_init 1 "/etc/pushpin").
  vm_compute; reflexivity.
Defined.

(** ** The session limit and its split among the workers *)

(** C9. The total session limit that [run] splits among the workers is
    [max_open_requests] clamped down to [client_maxconn] when
    [max_open_requests] is set and not negative, and [client_maxconn]
    (50000 unless set) otherwise. *)
Theorem sessions_total_clamped `{QFileInfo} (settings : Settings)
    (args : ArgsData) (pid : Z) (configDir : QString) (a : RunLoopArgs) :
  run settings args pid configDir = Some (inr a) ->
  let clientMaxconn :=
    default 50000 (intValues settings !! "runner/client_maxconn") in
  let total :=
    match intValues settings !! "proxy/max_open_requests" with
    | Some v => if decide (0 <= v) then Z.min v clientMaxconn else clientMaxconn
    | None => clientMaxconn
    end in
  Int.div total (rl_workerCount a) = Some (sessionsMax (rl_config a))
  /\ sessionsTotal settings = total
  /\ total <= clientMaxconn.
Proof.
  intros Hrun clientMaxconn total.
  destruct (run_inr _ _ _ _ _ Hrun) as (Hdiv & Hwc & _).
  assert (sessionsTotal settings = total) as Htotal.
  { unfold sessionsTotal, effectiveSessionsMax, value_int, total, clientMaxconn.
    destruct (intValues settings !! "proxy/max_open_requests") as [v|]; simpl.
    - destruct (decide (0 <= v)), (0 <=? v) eqn:Hv; try done;
        [apply Z.leb_gt in Hv | apply Z.leb_le in Hv]; lia.
    - done. }
  rewrite Hwc, <- Htotal. split; [done|]. split; [done|].
  unfold total. destruct (intValues settings !! "proxy/max_open_requests");
    [destruct (decide _)|]; lia.
Qed.

Lemma sessionsMax_workerConfig (config : Configuration) (workerCount n : Z) :
  sessionsMax (workerConfig config workerCount n) = sessionsMax config.
Proof. unfold workerConfig. by destruct (1 <? workerCount). Qed.

Lemma foldr_add_const (q : Z) (l : list Z) :
  Forall (fun x => x = q) l -> foldr Z.add 0 l = Z.of_nat (length l) * q.
Proof.
  induction 1 as [|x l -> _ IH]; [done|].
  cbn [foldr length]. rewrite IH. lia.
Qed.

Lemma sessionsSum_eq (a : RunLoopArgs) :
  sessionsSum a = Z.max 0 (rl_workerCount a) * sessionsMax (rl_config a).
Proof.
  unfold sessionsSum, workerConfigs, workerIndices.
  rewrite (foldr_add_const (sessionsMax (rl_config a))).
  - rewrite !length_fmap, length_seqZ. f_equal. lia.
  - rewrite <- list_fmap_compose. apply Forall_fmap, Forall_forall.
    intros n _. apply sessionsMax_workerConfig.
Qed.


Import Examples.



Lemma sessions_total_clamped_witness :
  exists a,
    @run unix_paths two_workers ArgsData_init 1 "/etc/pushpin" = Some (inr a)
    /\ Int.div (Z.min 101 50000) (rl_workerCount a)
       = Some (sessionsMax (rl_config a)).
Proof.
  eexists. split; [vm_compute; reflexivity|].
  apply (@sessions_total_clamped unix_paths two_workers ArgsData_init 1
           "/etc/pushpin").
  vm_compute; reflexivity.
Defined.


(** ** The budgets of a worker's event loop *)

Lemma checked_Some (z r : Z) : Int.checked z = Some r -> r = z.
Proof. unfold Int.checked. destruct (Int.in_range z); naive_solver. Qed.

Lemma checked_fits (z : Z) :
  Int.INT_MIN <= z <= Int.INT_MAX -> Int.checked z = Some z.
Proof.
  intros Hz. unfold Int.checked, Int.in_range.
  destruct (Int.INT_MIN <=? z) eqn:H1, (z <=? Int.INT_MAX) eqn:H2; try done;
    try apply Z.leb_gt in H1; try apply Z.leb_gt in H2; lia.
Qed.

Section BudgetProofs.
Context `{Limits}.




End BudgetProofs.


(** ** Per-worker endpoint specs *)

Example suffixSpec_ipc : suffixSpec "ipc://stats" 3 = "ipc://stats-3".
Proof. reflexivity. Qed.

Example suffixSpec_tcp :
  suffixSpec "tcp://127.0.0.1:5560" 3 = "tcp://127.0.0.1:5560".
Proof. reflexivity. Qed.

Example suffixSpecs_two :
  suffixSpecs ["ipc://ws-a"; "ipc://ws-b"] 1 = ["ipc://ws-a"; "ipc://ws-b"].
Proof. reflexivity. Qed.

(** C2 fails as stated.  With two workers, a control endpoint list of two
    IPC entries reaches worker 1 unchanged: neither entry is suffixed. *)
Lemma suffix_two_ipc_specs :
  "ipc://ws-a" ∈ wsControlInitSpecs base_config
  /\ startsWith "ipc://ws-a" "ipc:" = true
  /\ wsControlInitSpecs (workerConfig base_config 2 1)
     = ["ipc://ws-a"; "ipc://ws-b"]
  /\ wsControlInitSpecs (workerConfig base_config 2 1)
     <> suffixEach (wsControlInitSpecs base_config) 1.
Proof.
  split; [by left|]. split; [reflexivity|]. split; [reflexivity|].
  by vm_compute.
Qed.

(** C2, as amended. With more than one worker, worker [n] is given each
    single endpoint spec with ["-n"] appended when the spec starts with
    ["ipc:"] and unchanged otherwise; a list of endpoint specs is treated
    the same way when it has exactly one entry, and is left unchanged when
    it has none or several.  With one worker no spec is changed.  The
    connection-manager specs are never changed. *)
Theorem worker_specs_suffixed (config : Configuration) (workerCount n : Z) :
  let w := workerConfig config workerCount n in
  let one (s : QString) :=
    if startsWith s "ipc:" then s +:+ "-" +:+ number n else s in
  let many (l : QStringList) :=
    match l with
    | [s] => [one s]
    | _ => l
    end in
  (1 < workerCount ->
   inspectSpec w = one (inspectSpec config)
   /\ acceptSpec w = one (acceptSpec config)
   /\ retryInSpec w = one (retryInSpec config)
   /\ statsSpec w = one (statsSpec config)
   /\ commandSpec w = one (commandSpec config)
   /\ wsControlInitSpecs w = many (wsControlInitSpecs config)
   /\ wsControlStreamSpecs w = many (wsControlStreamSpecs config)
   /\ intServerInSpecs w = many (intServerInSpecs config)
   /\ intServerInStreamSpecs w = many (intServerInStreamSpecs config)
   /\ intServerOutSpecs w = many (intServerOutSpecs config))
  /\ (workerCount <= 1 ->
      inspectSpec w = inspectSpec config
      /\ acceptSpec w = acceptSpec config
      /\ retryInSpec w = retryInSpec config
      /\ statsSpec w = statsSpec config
      /\ commandSpec w = commandSpec config
      /\ wsControlInitSpecs w = wsControlInitSpecs config
      /\ wsControlStreamSpecs w = wsControlStreamSpecs config
      /\ intServerInSpecs w = intServerInSpecs config
      /\ intServerInStreamSpecs w = intServerInStreamSpecs config
      /\ intServerOutSpecs w = intServerOutSpecs config)
  /\ serverInSpecs w = serverInSpecs config
  /\ serverInStreamSpecs w = serverInStreamSpecs config
  /\ serverOutSpecs w = serverOutSpecs config
  /\ clientOutSpecs w = clientOutSpecs config
  /\ clientOutStreamSpecs w = clientOutStreamSpecs config
  /\ clientInSpecs w = clientInSpecs config.
Proof.
  intros w one many.
  assert (forall l, suffixSpecs l n = many l) as Hmany.
  { intros [|s [|s' l]]; simpl; try done.
    unfold one. by destruct (startsWith s "ipc:"). }
  subst w. unfold workerConfig.
  destruct (1 <? workerCount) eqn:Hwc;
    [apply Z.ltb_lt in Hwc | apply Z.ltb_ge in Hwc]; cbn [inspectSpec acceptSpec
      retryInSpec statsSpec commandSpec wsControlInitSpecs wsControlStreamSpecs
      intServerInSpecs intServerInStreamSpecs intServerOutSpecs serverInSpecs
      serverInStreamSpecs serverOutSpecs clientOutSpecs clientOutStreamSpecs
      clientInSpecs].
  - rewrite !Hmany. split; [done|]. split; [lia|done].
  - split; [lia|done].
Qed.

Lemma worker_specs_suffixed_witness :
  inspectSpec (workerConfig base_config 2 1) = "ipc://inspect-1"
  /\ statsSpec (workerConfig base_config 2 1) = "tcp://127.0.0.1:5560"
  /\ wsControlStreamSpecs (workerConfig base_config 2 1) = ["ipc://ws-stream-1"]
  /\ wsControlInitSpecs (workerConfig base_config 2 1)
     = ["ipc://ws-a"; "ipc://ws-b"]
  /\ inspectSpec (workerConfig base_config 1 0) = "ipc://inspect".
Proof.
  destruct (worker_specs_suffixed base_config 2 1) as [Hmulti _].
  destruct (worker_specs_suffixed base_config 1 0) as [_ [Hsingle _]].
  destruct (Hmulti ltac:(lia)) as (H1 & _ & _ & H4 & _ & H6 & H7 & _).
  destruct (Hsingle ltac:(lia)) as (H1' & _).
  repeat split; assumption.
Defined.

(** ** The domain map *)

Lemma foldl_snoc {A} (init l : list A) :
  foldl (fun acc r => acc ++ [r]) init l = init ++ l.
Proof.
  revert init. induction l as [|x l IH]; intros init; simpl.
  - by rewrite app_nil_r.
  - rewrite IH, <- app_assoc. done.
Qed.

(** After a successful parse the route lines are the values of the
    [--route] options, in their order. *)
Lemma parseCommandLine_routeLines `{ToInt} (parser : QCommandLineParser)
    (args : ArgsData) (msg : QString) :
  parseCommandLine parser ArgsData_init = (CommandLineOk, args, msg) ->
  routeLines args = values parser "route".
Proof.
  unfold parseCommandLine.
  destruct (negb (parseOk parser)); [discriminate|].
  destruct (isSet parser "version"); [discriminate|].
  destruct (isSet parser "help"); [discriminate|].
  set (a1 := if isSet parser "config" then _ else _).
  set (a2 := if isSet parser "logfile" then _ else _).
  assert (routeLines a2 = []) as Ha2.
  { subst a2 a1. by destruct (isSet parser "logfile"), (isSet parser "config"). }
  destruct (if isSet parser "loglevel" then _ else _); [|discriminate].
  intros [= <-]. cbn [routeLines]. rewrite Ha2.
  unfold isSet. destruct (bool_decide_reflect (values parser "route" = [])) as [->|_];
    simpl; [done|].
  by rewrite foldl_snoc.
Qed.

Lemma foldl_addRouteLine (d : DomainMap) (lines : QStringList) :
  dm_fileName (foldl addRouteLine d lines) = dm_fileName d
  /\ dm_lines (foldl addRouteLine d lines) = dm_lines d ++ lines.
Proof.
  revert d. induction lines as [|line lines IH]; intros d; simpl.
  - by rewrite app_nil_r.
  - destruct (IH (addRouteLine d line)) as [-> ->]. simpl.
    by rewrite <- app_assoc.
Qed.

Lemma start_returns (engineOk : bool) : EngineThread.start engineOk = Some engineOk.
Proof. by destruct engineOk. Qed.

Lemma startWorkers_domainMap (engineStart : Configuration -> bool)
    (a : RunLoopArgs) (ns : list Z) (st st' : State) (completed : bool) :
  startWorkers engineStart a ns st = Some (st', completed) ->
  domainMap st' = domainMap st.
Proof.
  revert st. induction ns as [|n ns IH]; intros st; simpl.
  - by intros [= <- _].
  - rewrite start_returns. cbn [mbind option_bind].
    destruct (engineStart _); simpl.
    + intros Hrest. by rewrite (IH _ Hrest).
    + by intros [= <- _].
Qed.

Lemma startup_domainMap (engineStart : Configuration -> bool)
    (a : RunLoopArgs) (st : State) :
  startup engineStart a = Some st ->
  domainMap st
  = Some (makeDomainMap (rl_routeLines a) (rl_routesFile a) (rl_newEventLoop a)).
Proof.
  unfold startup. intros Hst.
  apply bind_Some in Hst as ([st' completed] & Hloop & [= <-]).
  apply startWorkers_domainMap in Hloop.
  by destruct completed.
Qed.

(** C5. When the command line gives at least one [--route] line, the domain
    map is an empty map to which the route lines were added with
    [addRouteLine], in order, and it reads no file; when it gives none, the
    domain map is constructed from the routes file. *)
Theorem route_lines_override_routes_file `{ToInt} `{QFileInfo}
    (engineStart : Configuration -> bool) (parser : QCommandLineParser)
    (settings : Settings) (pid : Z) (configDir : QString)
    (args : ArgsData) (msg : QString) (a : RunLoopArgs) (st : State) :
  parseCommandLine parser ArgsData_init = (CommandLineOk, args, msg) ->
  run settings args pid configDir = Some (inr a) ->
  startup engineStart a = Some st ->
  let lines := values parser "route" in
  (lines <> [] ->
   exists d,
     domainMap st = Some d
     /\ d = foldl addRouteLine (DomainMap_new (rl_newEventLoop a)) lines
     /\ dm_fileName d = None
     /\ dm_lines d = lines)
  /\ (lines = [] ->
      domainMap st
      = Some (DomainMap_fromFile (rl_routesFile a) (rl_newEventLoop a))).
Proof.
  intros Hparse Hrun Hstart lines.
  apply parseCommandLine_routeLines in Hparse.
  destruct (run_inr _ _ _ _ _ Hrun) as (_ & _ & Hlines & _).
  apply startup_domainMap in Hstart.
  rewrite Hlines, Hparse in Hstart. fold lines in Hstart.
  unfold makeDomainMap in Hstart. split.
  - intros Hne. destruct lines as [|l ls] eqn:El; [done|].
    eexists. split; [exact Hstart|]. split; [done|].
    apply (foldl_addRouteLine (DomainMap_new _)).
  - intros Hnil. by rewrite Hnil in Hstart.
Qed.

(** ** Signals *)

(** C6. The hangup handler logs, rotates the log file and reloads the route
    map, and does nothing else: it requests no exit, stops and deletes no
    worker thread, and leaves the thread list as it is; neither does the
    notification of the workers that follows a change of the routes. *)
Theorem hup_reloads_and_never_exits (st : State) :
  log (on_hup st) = log st ++ [log_info "reloading"; log_rotate; DomainMap_reload]
  /\ exitCode (on_hup st) = exitCode st
  /\ threads (on_hup st) = threads st
  /\ domainMap (on_hup st) = domainMap st
  /\ (exists acts,
        log (on_changed (on_hup st)) = log st ++ acts
        /\ Forall (fun a => terminates a = false) acts)
  /\ exitCode (on_changed (on_hup st)) = exitCode st
  /\ threads (on_changed (on_hup st)) = threads st.
Proof.
  repeat split; try done.
  eexists. split.
  - unfold on_changed, on_hup, emit. cbn [log threads]. by rewrite <- app_assoc.
  - apply Forall_app. split.
    + by repeat constructor.
    + apply Forall_fmap, Forall_forall. by intros n _.
Qed.

(** ** The start barrier *)

Module Barrier.
Import EngineThread.

Lemma init_in_states (engineOk : bool) : init ∈ states engineOk.
Proof. by left. Qed.

(** Membership in a list of concrete states, by computation. *)
Ltac in_states :=
  match goal with
  | |- ?P => apply (@bool_decide_unpack P _); vm_compute; exact I
  end.

(** Split [s ∈ [s1; ...; sn]] into the cases [s = si]. *)
Ltac each_state H :=
  vm_compute in H;
  repeat (apply elem_of_cons in H as [-> | H]);
  [.. | by apply elem_of_nil in H].

(** The states met by the scheduler are closed under the steps of both
    threads. *)
Lemma states_closed (engineOk : bool) (s s' : State) :
  s ∈ states engineOk -> step engineOk s s' -> s' ∈ states engineOk.
Proof.
  intros Hs Hstep. destruct engineOk; each_state Hs;
    destruct Hstep as [Hstep|Hstep]; vm_compute in Hstep;
    try discriminate; injection Hstep as <-; in_states.
Qed.

Lemma reachable_states (engineOk : bool) (s : State) :
  reachable engineOk s -> s ∈ states engineOk.
Proof.
  unfold reachable. revert s. apply rtc_ind_r.
  - apply init_in_states.
  - intros s s' _ Hstep Hs. by apply (states_closed _ s).
Qed.

(** On the states met, the scheduler's choice is the only step there is. *)
Lemma step_exec (engineOk : bool) (s s' : State) :
  s ∈ states engineOk -> step engineOk s s' -> s' = exec engineOk 1 s.
Proof.
  intros Hs Hstep. destruct engineOk; each_state Hs;
    destruct Hstep as [Hstep|Hstep]; vm_compute in Hstep;
    try discriminate; injection Hstep as <-; reflexivity.
Qed.

Lemma exec_S (engineOk : bool) (k : nat) (s : State) :
  exec engineOk 1 (exec engineOk k s) = exec engineOk (S k) s.
Proof.
  revert s. induction k as [|k IH]; intros s; [done|].
  change (exec engineOk (S k) s) with
    (match sup_step s with
     | Some s' => exec engineOk k s'
     | None => match wrk_step engineOk s with
               | Some s' => exec engineOk k s'
               | None => s
               end
     end).
  change (exec engineOk (S (S k)) s) with
    (match sup_step s with
     | Some s' => exec engineOk (S k) s'
     | None => match wrk_step engineOk s with
               | Some s' => exec engineOk (S k) s'
               | None => s
               end
     end).
  destruct (sup_step s) as [s1|] eqn:E1; [apply IH|].
  destruct (wrk_step engineOk s) as [s2|] eqn:E2; [apply IH|].
  simpl. by rewrite E1, E2.
Qed.

(** Every execution of the two threads is a prefix of the scheduler's. *)
Lemma nsteps_exec (engineOk : bool) (k : nat) (s : State) :
  nsteps (step engineOk) k init s -> s = exec engineOk k init.
Proof.
  revert s. induction k as [|k IH]; intros s Hk.
  - by inversion Hk.
  - apply nsteps_inv_r in Hk as (s1 & Hk & Hstep).
    pose proof (IH _ Hk) as ->.
    rewrite <- exec_S. apply step_exec; [|done].
    apply reachable_states. eapply rtc_nsteps_2, Hk.
Qed.

Lemma states_safe (engineOk : bool) (s : State) :
  s ∈ states engineOk -> safe engineOk s = true.
Proof. intros Hs. destruct engineOk; each_state Hs; reflexivity. Qed.

Lemma states_progress (engineOk : bool) (s : State) :
  s ∈ states engineOk ->
  sup s = SDone engineOk \/ exists s', step engineOk s s'.
Proof.
  intros Hs. destruct engineOk; each_state Hs;
    first [ by left
          | right; eexists; left; vm_compute; reflexivity
          | right; eexists; right; vm_compute; reflexivity ].
Qed.

Lemma done_no_step (engineOk r : bool) (s s' : State) :
  s ∈ states engineOk -> sup s = SDone r -> ~ step engineOk s s'.
Proof.
  intros Hs Hdone Hstep. destruct engineOk; each_state Hs;
    try discriminate Hdone;
    destruct Hstep as [Hstep|Hstep]; vm_compute in Hstep; discriminate.
Qed.


Lemma nsteps_bounded (engineOk : bool) (k : nat) (s : State) :
  nsteps (step engineOk) k init s -> (k <= 11)%nat.
Proof.
  intros Hk. destruct (decide (k <= 11)%nat) as [|Hgt]; [done|]. exfalso.
  replace k with (11 + S (k - 12))%nat in Hk by lia.
  apply nsteps_add_inv in Hk as (s1 & H11 & Hrest).
  pose proof (nsteps_exec _ _ _ H11) as ->.
  inversion Hrest as [|? ? s2 ? Hstep _]; subst.
  assert (exists r, sup (exec engineOk 11 init) = SDone r) as [r Hr]
    by (destruct engineOk; eexists; reflexivity).
  eapply done_no_step; [|exact Hr|exact Hstep].
  apply reachable_states. eapply rtc_nsteps_2, H11.
Qed.

End Barrier.

Import Barrier.

(** ** Starting the workers *)

Section StartWorkers.
Context (engineStart : Configuration -> bool) (a : RunLoopArgs).

Lemma startWorkers_all (ns : list Z) (st : State) :
  Forall (starts engineStart a) ns ->
  startWorkers engineStart a ns st
  = Some ({| domainMap := domainMap st; threads := threads st ++ ns;
             exitCode := exitCode st;
             log := log st ++ (EngineThread_start <$> ns) |}, true).
Proof.
  intros Hall. revert st. induction Hall as [|n ns Hn _ IH]; intros st.
  - simpl. rewrite !app_nil_r. by destruct st.
  - cbn [startWorkers]. rewrite start_returns. cbn [mbind option_bind].
    unfold starts in Hn. rewrite Hn. cbn [negb].
    rewrite IH. cbn [domainMap threads exitCode log emit fmap list_fmap].
    by rewrite <- !app_assoc.
Qed.

Lemma startWorkers_failure (pre post : list Z) (n : Z) (st : State) :
  Forall (starts engineStart a) pre -> ~ starts engineStart a n ->
  startWorkers engineStart a (pre ++ n :: post) st
  = Some ({| domainMap := domainMap st; threads := [];
             exitCode := Some 1;
             log := log st
                    ++ (EngineThread_start <$> pre)
                    ++ [EngineThread_start n; EngineThread_delete n]
                    ++ (EngineThread_delete <$> (threads st ++ pre))
                    ++ [if rl_newEventLoop a then EventLoop_exit 1
                        else QCoreApplication_exit 1] |}, false).
Proof.
  intros Hall Hn. revert st. induction Hall as [|i pre Hi _ IH]; intros st.
  - cbn [app startWorkers]. rewrite start_returns. cbn [mbind option_bind].
    unfold starts in Hn. apply not_true_is_false in Hn. rewrite Hn. cbn [negb].
    unfold exit_, deleteThreads, emit.
    cbn [domainMap threads exitCode log fmap list_fmap].
    rewrite !app_nil_r, <- !app_assoc. done.
  - cbn [app startWorkers]. rewrite start_returns. cbn [mbind option_bind].
    unfold starts in Hi. rewrite Hi. cbn [negb].
    rewrite IH. cbn [domainMap threads exitCode log emit].
    rewrite fmap_cons, <- !app_assoc. done.
Qed.

End StartWorkers.

(** C1. [start()] is a barrier: in every state the two threads can reach,
    the supervisor is past its wait only after the worker has signalled
    [started] or [error]; whatever the interleaving, [start()] returns
    within eleven steps, and the value it returns is the result of the
    worker's engine start.  When the engine of some worker does not start,
    the supervisor starts no further worker, deletes the thread that
    failed and the threads started before it, clears the list and makes
    the main loop return 1; when all engines start, no exit is requested
    and all threads are kept. *)
Theorem worker_start_is_barriered :
  (forall engineOk s,
      reachable engineOk s ->
      (released (sup s) = true -> signalled (wrk s) = true)
      /\ (forall r, sup s = SDone r -> r = engineOk /\ worker s = engineOk)
      /\ (sup s = SDone engineOk \/ exists s', step engineOk s s'))
  /\ (forall engineOk k s,
        nsteps (step engineOk) k init s ->
        (k <= 11)%nat /\ s = exec engineOk k init)
  /\ (forall engineOk, EngineThread.start engineOk = Some engineOk)
  /\ (forall engineStart a pre n post,
        workerIndices (rl_workerCount a) = pre ++ n :: post ->
        Forall (starts engineStart a) pre ->
        ~ starts engineStart a n ->
        exists st,
          startup engineStart a = Some st
          /\ exitCode st = Some 1
          /\ threads st = []
          /\ log st
             = (EngineThread_start <$> pre)
               ++ [EngineThread_start n; EngineThread_delete n]
               ++ (EngineThread_delete <$> pre)
               ++ [if rl_newEventLoop a then EventLoop_exit 1
                   else QCoreApplication_exit 1])
  /\ (forall engineStart a,
        Forall (starts engineStart a) (workerIndices (rl_workerCount a)) ->
        exists st,
          startup engineStart a = Some st
          /\ exitCode st = None
          /\ threads st = workerIndices (rl_workerCount a)
          /\ Forall (fun act => terminates act = false) (log st)).
Proof.
  split; [|split; [|split; [|split]]].
  - intros engineOk s Hs%reachable_states.
    pose proof (states_safe _ _ Hs) as Hsafe.
    unfold safe in Hsafe. apply andb_true_iff in Hsafe as [Hrel Hdone].
    split; [|split].
    + intros Hr. by rewrite Hr in Hrel.
    + intros r Hr. rewrite Hr in Hdone.
      apply andb_true_iff in Hdone as [H1 H2].
      apply bool_decide_eq_true in H1, H2. done.
    + by apply states_progress.
  - intros engineOk k s Hk. split.
    + by apply (nsteps_bounded engineOk k s).
    + by apply nsteps_exec.
  - apply start_returns.
  - intros engineStart a pre n post Hidx Hpre Hn.
    unfold startup. rewrite Hidx.
    rewrite (startWorkers_failure _ _ _ _ _ _ Hpre Hn).
    cbn [mbind option_bind]. eexists. split; [done|].
    cbn [exitCode threads log app]. done.
  - intros engineStart a Hall.
    unfold startup. rewrite (startWorkers_all _ _ _ _ Hall).
    cbn [mbind option_bind]. eexists. split; [done|].
    cbn [exitCode threads log emit app]. split; [done|]. split; [done|].
    apply Forall_app. split; [|by repeat constructor].
    apply Forall_fmap, Forall_forall. by intros n _.
Qed.

Lemma worker_start_is_barriered_witness :
  (reachable true (exec true 16 init)
   /\ signalled (wrk (exec true 16 init)) = true)
  /\ (exists st,
        startup second_fails three_workers = Some st
        /\ exitCode st = Some 1
        /\ threads st = []
        /\ log st = [EngineThread_start 0; EngineThread_start 1;
                     EngineThread_delete 1; EngineThread_delete 0;
                     EventLoop_exit 1]).
Proof.
  destruct worker_start_is_barriered as (Hbarrier & _ & _ & Hfail & _).
  assert (reachable true (exec true 16 init)) as Hreach.
  { unfold reachable.
    repeat first
      [ apply rtc_refl
      | eapply rtc_l; [first [left; reflexivity | right; reflexivity]|] ]. }
  split.
  - split; [exact Hreach|].
    by apply (proj1 (Hbarrier true _ Hreach)).
  - apply (Hfail second_fails three_workers [0] 1 [2]).
    + reflexivity.
    + by repeat constructor.
    + by vm_compute.
Defined.

Lemma route_lines_override_routes_file_witness :
  exists args a st d,
    @parseCommandLine no_numbers route_parser ArgsData_init
      = (CommandLineOk, args, "")
    /\ @run unix_paths two_workers args 1 "/etc/pushpin" = Some (inr a)
    /\ startup (fun _ => true) a = Some st
    /\ domainMap st = Some d
    /\ dm_fileName d = None
    /\ dm_lines d = ["* localhost:8080"; "example.com backend:80"].
Proof.
  eexists _, _, _.
  edestruct (@route_lines_override_routes_file no_numbers unix_paths
               (fun _ => true) route_parser two_workers 1 "/etc/pushpin")
    as [Hlines _]; [vm_compute; reflexivity ..|].
  destruct (Hlines ltac:(by vm_compute)) as (d & Hd & _ & Hfile & Hl).
  exists d. split; [vm_compute; reflexivity|].
  split; [vm_compute; reflexivity|]. split; [vm_compute; reflexivity|].
  split; [exact Hd|]. split; [exact Hfile|exact Hl].
Defined.

(** ** The conncheck call *)

Module ConnCheckProofs.
Import Qt ControlRequest.

Section WithUtf8.
Context `{Utf8}.

Lemma foldl_snoc_fmap {A B} (f : A -> B) (init : list B) (l : list A) :
  foldl (fun acc x => acc ++ [f x]) init l = init ++ (f <$> l).
Proof.
  revert init. induction l as [|x l IH]; intros init; simpl.
  - by rewrite app_nil_r.
  - rewrite IH, <- app_assoc. done.
Qed.

Lemma collect_byte_arrays (bs : list QByteArray) (out : gset QString) :
  collect (VByteArray <$> bs) out = Some (out ∪ list_to_set (fromUtf8 <$> bs)).
Proof.
  revert out. induction bs as [|b bs IH]; intros out; simpl.
  - by rewrite (right_id_L ∅ (∪)).
  - by rewrite IH, (assoc_L (∪)).
Qed.

Lemma collect_other (l : list QVariant) (v : QVariant) (out : gset QString) :
  v ∈ l -> typeId v <> QByteArray_ -> collect l out = None.
Proof.
  intros Hv Hty. revert out.
  induction Hv as [v l|v v' l _ IH]; intros out; simpl.
  - destruct (typeId v); done.
  - destruct (is_QByteArray (typeId v')); simpl; [by apply IH|done].
Qed.

(** C7. The call started is ["conncheck"], with the client ids, as byte
    arrays, in a list under ["ids"].  A successful reply whose result is a
    list of byte arrays finishes the request successfully with the set of
    those ids; a successful reply whose result is not a list, or is a list
    with an element that is not a byte array, finishes it as failed,
    without a value; an unsuccessful reply finishes it as failed with the
    error condition. *)
Theorem conncheck_call_and_reply :
  (forall cids : gset QString,
      method (ConnCheck_start cids) = "conncheck"
      /\ exists vcids,
           args (ConnCheck_start cids) = {[ "ids" := VList vcids ]}
           /\ forall v, v ∈ vcids
                        <-> exists cid, cid ∈ cids /\ v = VByteArray (toUtf8 cid))
  /\ (forall req bs,
        success req = true ->
        result req = VList (VByteArray <$> bs) ->
        req_finished req
        = setFinished true (VCidSet (list_to_set (fromUtf8 <$> bs))))
  /\ (forall req,
        success req = true ->
        typeId (result req) <> QVariantList ->
        req_finished req = setFinished false VInvalid)
  /\ (forall req l v,
        success req = true ->
        result req = VList l ->
        v ∈ l -> typeId v <> QByteArray_ ->
        req_finished req = setFinished false VInvalid)
  /\ (forall req,
        success req = false ->
        req_finished req = setFinished false (VInt (errorCondition req))).
Proof.
  split; [|split; [|split; [|split]]].
  - intros cids. split; [done|]. eexists. split.
    + unfold ConnCheck_start. cbn [args].
      rewrite (foldl_snoc_fmap (fun cid => VByteArray (toUtf8 cid))). done.
    + intros v. simpl. rewrite list_elem_of_fmap. split.
      * intros (cid & -> & Hcid%elem_of_elements). eauto.
      * intros (cid & Hcid & ->). exists cid. by rewrite elem_of_elements.
  - intros req bs Hok Hres. unfold req_finished. rewrite Hok, Hres.
    cbn [typeId is_QVariantList negb toList].
    rewrite collect_byte_arrays. by rewrite (left_id_L ∅ (∪)).
  - intros req Hok Hty. unfold req_finished. rewrite Hok.
    by destruct (result req).
  - intros req l v Hok Hres Hv Hty. unfold req_finished. rewrite Hok, Hres.
    cbn [typeId is_QVariantList negb toList].
    by rewrite (collect_other l v).
  - intros req Hok. unfold req_finished. by rewrite Hok.
Qed.

End WithUtf8.

Lemma conncheck_call_and_reply_witness :
  @req_finished Examples.ascii_utf8
    {| success := true; result := VList [VByteArray "a"; VByteArray "b"];
       errorCondition := 0 |}
  = setFinished true (VCidSet (list_to_set ["a"; "b"]))
  /\ @req_finished Examples.ascii_utf8
       {| success := true; result := VString "a"; errorCondition := 0 |}
     = setFinished false VInvalid
  /\ @req_finished Examples.ascii_utf8
       {| success := true; result := VList [VByteArray "a"; VInt 7];
          errorCondition := 0 |}
     = setFinished false VInvalid
  /\ @req_finished Examples.ascii_utf8
       {| success := false; result := VInvalid; errorCondition := 3 |}
     = setFinished false (VInt 3).
Proof.
  destruct (@conncheck_call_and_reply Examples.ascii_utf8)
    as (_ & Hlist & Hother & Helem & Herror).
  split; [|split; [|split]].
  - by apply (Hlist _ ["a"; "b"]).
  - by apply Hother.
  - apply (Helem _ [VByteArray "a"; VInt 7] (VInt 7)); try done.
    by right; left.
  - by apply Herror.
Defined.

End ConnCheckProofs.

(** ** The update check's response *)

Module UpdaterProofs.
Import Qt Updater.

(** C8. A response of exactly [MAX_RESPONSE_SIZE] bytes is not rejected for
    its size, and once it is complete with status 200 its body is read and
    handed on; a response of [MAX_RESPONSE_SIZE + 1] bytes is rejected as
    too large and the request is abandoned.  In general the size check
    rejects exactly the responses longer than [MAX_RESPONSE_SIZE]. *)
Theorem response_size_boundary (req : ZhttpRequest) :
  (bytesAvailable req = MAX_RESPONSE_SIZE ->
   (req_readyRead req).1 <> ResponseTooLarge
   /\ (isFinished req = true -> responseCode req = 200 ->
       req_readyRead req = (BodyRead (buffered req), None)))
  /\ (bytesAvailable req = MAX_RESPONSE_SIZE + 1 ->
      req_readyRead req = (ResponseTooLarge, None))
  /\ ((req_readyRead req).1 = ResponseTooLarge
      <-> MAX_RESPONSE_SIZE < bytesAvailable req).
Proof.
  assert ((req_readyRead req).1 = ResponseTooLarge
          <-> MAX_RESPONSE_SIZE < bytesAvailable req) as Hiff.
  { unfold req_readyRead.
    destruct (MAX_RESPONSE_SIZE <? bytesAvailable req) eqn:Hsize.
    - apply Z.ltb_lt in Hsize. done.
    - apply Z.ltb_ge in Hsize.
      destruct (negb (isFinished req)), (negb (responseCode req =? 200));
        simpl; split; (discriminate || lia). }
  split; [|split; [|done]].
  - intros Hsize. split.
    + rewrite Hiff. lia.
    + intros Hfin Hcode. unfold req_readyRead.
      rewrite Hsize, Z.ltb_irrefl, Hfin, Hcode. done.
  - intros Hsize. unfold req_readyRead.
    by rewrite Hsize, (proj2 (Z.ltb_lt _ _)) by lia.
Qed.

Lemma response_size_boundary_witness :
  req_readyRead {| buffered := Examples.body (Z.to_nat MAX_RESPONSE_SIZE); isFinished := true;
                   responseCode := 200 |}
  = (BodyRead (Examples.body (Z.to_nat MAX_RESPONSE_SIZE)), None)
  /\ req_readyRead {| buffered := Examples.body (Z.to_nat (MAX_RESPONSE_SIZE + 1)); isFinished := true;
                      responseCode := 200 |}
     = (ResponseTooLarge, None).
Proof.
  split.
  - apply (response_size_boundary
             {| buffered := Examples.body (Z.to_nat MAX_RESPONSE_SIZE); isFinished := true;
                responseCode := 200 |}); [by vm_compute | done | done].
  - apply (response_size_boundary
             {| buffered := Examples.body (Z.to_nat (MAX_RESPONSE_SIZE + 1)); isFinished := true;
                responseCode := 200 |}). by vm_compute.
Defined.

End UpdaterProofs.

(* ===================================================================== *)
(** * Part III: further properties of the embedded code                  *)
(* ===================================================================== *)

(** ** [trimlist] and concatenation *)

Lemma filter_all_nonempty (l : list string) :
  "" ∉ l -> filter (fun s => s <> "") l = l.
Proof.
  induction l as [|x l IH]; [done|].
  intros [Hx Hl]%not_elem_of_cons.
  rewrite filter_cons_True by done. by rewrite IH.
Qed.

(** X1. Trimming commutes with concatenation, as [run] relies on when it
    joins two trimmed settings; trimming twice is trimming once; and a
    list comes back unchanged exactly when it has no empty entry. *)
Theorem trimlist_app_idempotent (l k : QStringList) :
  (exists l' k',
      trimlist l = Some l' /\ trimlist k = Some k'
      /\ trimlist (l ++ k) = Some (l' ++ k')
      /\ trimlist l' = Some l'
      /\ (length l' <= length l)%nat)
  /\ (trimlist l = Some l <-> "" ∉ l).
Proof.
  split.
  - exists (filter (fun s => s <> "") l), (filter (fun s => s <> "") k).
    rewrite !trimlist_spec. repeat split.
    + f_equal. apply filter_app.
    + f_equal. apply filter_all_nonempty, filter_no_empty.
    + apply length_filter.
  - rewrite trimlist_spec. split.
    + intros [= Hl] Hin. pose proof (filter_no_empty l) as Hno.
      rewrite Hl in Hno. done.
    + intros Hno. f_equal. by apply filter_all_nonempty.
Qed.

(** ** [parse_xffRule] *)

Module XffProofs.
Import Qt App Xff.

Section WithToInt.
Context `{ToInt}.

(** X2. A ["truncate:"] entry whose number does not parse ends the parsing:
    the rule is the one of the entries before it, and whatever follows,
    an ["append"] included, has no effect. *)
Theorem parse_xffRule_stops_at_malformed (init : XffRule)
    (pre post : QStringList) (bad : QString) :
  malformed bad ->
  parse_xffRule init (pre ++ bad :: post) = parse_xffRule init pre.
Proof.
  unfold parse_xffRule. intros [Hpre Hnum]. revert init.
  induction pre as [|s pre IH]; intros out; simpl.
  - by rewrite Hpre, Hnum.
  - destruct (startsWith s "truncate:"); [destruct (toInt (mid s 9))|];
      [apply IH|done|]. destruct (bool_decide (s = "append")); apply IH.
Qed.

(** X3. When every ["truncate:"] entry carries a number, the rule appends
    exactly when ["append"] is among the entries (or the default rule
    appends), its truncation is the number of the last ["truncate:"] entry
    (the default's when there is none), and other entries are ignored. *)
Theorem parse_xffRule_wellformed (init : XffRule) (l : QStringList) :
  (forall s, s ∈ l -> ~ malformed s) ->
  append (parse_xffRule init l) = append init || bool_decide ("append" ∈ l)
  /\ truncate (parse_xffRule init l)
     = default (truncate init) (last (omap truncation l)).
Proof.
  unfold parse_xffRule. revert init.
  induction l as [|s l IH]; intros out Hwf.
  - simpl. by rewrite orb_false_r.
  - assert (forall s', s' ∈ l -> ~ malformed s') as Hwf'
      by (intros s' Hs'; apply Hwf; by right).
    assert (~ malformed s) as Hs by (apply Hwf; by left).
    cbn [parse_xffRule_loop omap list_omap]. unfold malformed in Hs.
    unfold truncation at 1.
    destruct (startsWith s "truncate:") eqn:Hpre.
    + destruct (toInt (mid s 9)) as [x|] eqn:Hx; [|by destruct Hs].
      destruct (IH {| truncate := x; append := append out |} Hwf') as [-> ->].
      cbn [truncate append]. split.
      * f_equal. apply bool_decide_ext. rewrite elem_of_cons.
        split; [auto|]. intros [Heq|?]; [|done].
        rewrite <- Heq in Hpre. by vm_compute in Hpre.
      * rewrite last_cons. by destruct (last (omap truncation l)).
    + destruct (bool_decide_reflect (s = "append")) as [->|Hne].
      * destruct (IH {| truncate := truncate out; append := true |} Hwf')
          as [-> ->].
        cbn [truncate append]. split; [|done].
        rewrite (bool_decide_eq_true_2 ("append" ∈ "append" :: l)) by by left.
        by rewrite orb_true_r.
      * destruct (IH out Hwf') as [-> ->]. split; [|done].
        f_equal. apply bool_decide_ext. rewrite elem_of_cons.
        split; [auto|]. by intros [Heq|?].
Qed.

End WithToInt.

Lemma parse_xffRule_stops_at_malformed_witness :
  @parse_xffRule one_digit {| truncate := -1; append := false |}
    (["truncate:2"] ++ "truncate:x" :: ["append"])
  = {| truncate := 2; append := false |}.
Proof.
  rewrite (@parse_xffRule_stops_at_malformed one_digit); [reflexivity|].
  split; reflexivity.
Defined.

Lemma parse_xffRule_wellformed_witness :
  append (@parse_xffRule one_digit {| truncate := -1; append := false |}
            ["truncate:1"; "unknown"; "append"; "truncate:3"]) = true
  /\ truncate (@parse_xffRule one_digit {| truncate := -1; append := false |}
                 ["truncate:1"; "unknown"; "append"; "truncate:3"]) = 3.
Proof.
  apply (@parse_xffRule_wellformed one_digit {| truncate := -1; append := false |}
           ["truncate:1"; "unknown"; "append"; "truncate:3"]).
  intros s Hs [Hpre Hbad].
  repeat (apply elem_of_cons in Hs as [-> | Hs]);
    try discriminate Hbad; try discriminate Hpre.
  by apply elem_of_nil in Hs.
Defined.

End XffProofs.

(** ** Endpoints of different workers *)

Lemma prefix_append (p s t : string) :
  String.prefix p s = true -> String.prefix p (s +:+ t) = true.
Proof.
  revert s. induction p as [|a p IH]; intros s.
  - intros _. by destruct (s +:+ t).
  - destruct s as [|b s]; [done|]. simpl.
    destruct (Ascii.ascii_dec a b); [apply IH|done].
Qed.

Lemma append_inv_head (s a b : string) : s +:+ a = s +:+ b -> a = b.
Proof. induction s as [|c s IH]; simpl; [done|]. intros [= Heq]. auto. Qed.

Lemma append_length (s t : string) :
  String.length (s +:+ t) = (String.length s + String.length t)%nat.
Proof. induction s as [|c s IH]; simpl; [done|]. by rewrite IH. Qed.

Lemma suffix_inj (s : string) (i j : Z) :
  s +:+ ("-" +:+ number i) = s +:+ ("-" +:+ number j) -> i = j.
Proof.
  intros Heq%append_inv_head. injection Heq as Heq.
  unfold number in Heq. by apply pretty_Z_inj in Heq.
Qed.

(** X4. For an IPC spec the suffixed spec is still an IPC spec, differs
    from the spec itself and differs between any two indices, so that no
    two workers are given the same IPC endpoint; a spec that is not an IPC
    spec is returned as it is, for every index.  [suffixSpecs] keeps the
    number of entries. *)
Theorem suffixSpec_separates_workers (s : QString) (i : Z) :
  (startsWith s "ipc:" = true ->
   startsWith (suffixSpec s i) "ipc:" = true
   /\ suffixSpec s i <> s
   /\ (forall j, suffixSpec s i = suffixSpec s j -> i = j)
   /\ (forall j, suffixSpecs [s] i = suffixSpecs [s] j -> i = j))
  /\ (startsWith s "ipc:" = false ->
      suffixSpec s i = s /\ suffixSpecs [s] i = [s])
  /\ (forall l, length (suffixSpecs l i) = length l).
Proof.
  unfold suffixSpec, suffixSpecs. split; [|split].
  - intros Hipc. rewrite Hipc. repeat split.
    + by apply prefix_append.
    + intros Heq%(f_equal String.length). rewrite append_length in Heq.
      simpl in Heq. lia.
    + intros j. apply suffix_inj.
    + intros j [= Heq]. by apply suffix_inj in Heq.
  - intros Htcp. by rewrite Htcp.
  - intros [|s0 [|s1 l]]; try done. by destruct (startsWith s0 "ipc:").
Qed.

Lemma suffixSpec_separates_workers_witness :
  startsWith (suffixSpec "ipc://stats" 0) "ipc:" = true
  /\ suffixSpec "ipc://stats" 0 <> "ipc://stats"
  /\ suffixSpec "tcp://127.0.0.1:5560" 7 = "tcp://127.0.0.1:5560".
Proof.
  destruct (suffixSpec_separates_workers "ipc://stats" 0) as [Hipc _].
  destruct (suffixSpec_separates_workers "tcp://127.0.0.1:5560" 7)
    as (_ & Htcp & _).
  destruct (Hipc eq_refl) as (H1 & H2 & _).
  destruct (Htcp eq_refl) as (H3 & _).
  done.
Defined.

Import Observing.

(** X5. With more than one worker, the configurations of two different
    workers carry their own index, have different client ids, and differ
    in every single-valued spec that is an IPC spec and in every
    list-valued spec that is one IPC entry. *)
Theorem workerConfig_separates_workers (config : Configuration)
    (workerCount n n' : Z) :
  1 < workerCount -> n <> n' ->
  let w := workerConfig config workerCount n in
  let w' := workerConfig config workerCount n' in
  id w = n /\ id w' = n'
  /\ clientId w <> clientId w'
  /\ (forall k s,
        singleSpecs config !! k = Some s -> startsWith s "ipc:" = true ->
        singleSpecs w !! k <> singleSpecs w' !! k)
  /\ (forall k s,
        listSpecs config !! k = Some [s] -> startsWith s "ipc:" = true ->
        listSpecs w !! k <> listSpecs w' !! k).
Proof.
  intros Hwc Hne w w'. subst w w'. unfold workerConfig.
  rewrite (proj2 (Z.ltb_lt _ _) Hwc).
  assert (forall s, startsWith s "ipc:" = true ->
                    suffixSpec s n <> suffixSpec s n') as Hone.
  { intros s Hs Heq. apply Hne. unfold suffixSpec in Heq.
    rewrite Hs in Heq. by apply suffix_inj in Heq. }
  assert (forall s, startsWith s "ipc:" = true ->
                    suffixSpecs [s] n <> suffixSpecs [s] n') as Hmany.
  { intros s Hs Heq. apply Hne. unfold suffixSpecs in Heq.
    rewrite Hs in Heq. injection Heq as Heq. by apply suffix_inj in Heq. }
  split; [done|]. split; [done|]. split; [|split].
  - cbn [clientId]. intros Heq. by apply suffix_inj in Heq.
  - intros k s Hk Hs. unfold singleSpecs in *.
    cbn [inspectSpec acceptSpec retryInSpec statsSpec commandSpec].
    do 5 (destruct k as [|k];
          [injection Hk as <-; intros Heq; apply (Hone _ Hs);
           by injection Heq|]).
    done.
  - intros k s Hk Hs. unfold listSpecs in *.
    cbn [wsControlInitSpecs wsControlStreamSpecs intServerInSpecs
         intServerInStreamSpecs intServerOutSpecs].
    do 5 (destruct k as [|k];
          [injection Hk as Hk; rewrite Hk; intros Heq; apply (Hmany _ Hs);
           by injection Heq|]).
    done.
Qed.

Lemma workerConfig_separates_workers_witness :
  clientId (workerConfig Examples.base_config 2 0)
  <> clientId (workerConfig Examples.base_config 2 1)
  /\ inspectSpec (workerConfig Examples.base_config 2 0)
     <> inspectSpec (workerConfig Examples.base_config 2 1).
Proof.
  destruct (workerConfig_separates_workers Examples.base_config 2 0 1)
    as (_ & _ & Hid & Hsingle & _); [lia | lia |].
  split; [exact Hid|].
  intros Heq. apply (Hsingle 0%nat "ipc://inspect" eq_refl eq_refl).
  exact (f_equal Some Heq).
Defined.

(** ** The command line *)

(** X6. Parsing succeeds exactly when the parser accepted the arguments,
    neither the version nor the help was asked for, and a given log level
    is a number that is not negative; a log level that is not one is an
    error even with [--verbose].  On success [--verbose] makes the level
    3 whatever [--loglevel] says, the level is [-1] only when neither
    option was given, and of several [--config] values the last counts. *)
Theorem parseCommandLine_outcome `{ToInt} (parser : QCommandLineParser) :
  let '(r, args, msg) := parseCommandLine parser ArgsData_init in
  let levelOk :=
    isSet parser "loglevel" = true ->
    exists x, toInt (value parser "loglevel") = Some x /\ 0 <= x in
  (r = CommandLineOk <->
   parseOk parser = true /\ isSet parser "version" = false
   /\ isSet parser "help" = false /\ levelOk)
  /\ (r = CommandLineOk ->
      (isSet parser "verbose" = true -> logLevel args = 3)
      /\ (isSet parser "verbose" = false -> isSet parser "loglevel" = true ->
          toInt (value parser "loglevel") = Some (logLevel args))
      /\ (logLevel args = -1 <->
          isSet parser "verbose" = false /\ isSet parser "loglevel" = false)
      /\ configFile args = value parser "config"
      /\ logFile args = value parser "logfile"
      /\ ipcPrefix args = value parser "ipc-prefix"
      /\ quietCheck args = isSet parser "quiet-check").
Proof.
  assert (forall name, isSet parser name = false -> value parser name = "")
    as Hunset.
  { intros name. unfold isSet, value.
    destruct (bool_decide_reflect (values parser name = [])) as [->|]; done. }
  unfold parseCommandLine.
  destruct (parseOk parser); cbn [negb];
    [|split; [split; [done|intros (? & _); done]|done]].
  destruct (isSet parser "version");
    [split; [split; [done|intros (_ & ? & _); done]|done]|].
  destruct (isSet parser "help");
    [split; [split; [done|intros (_ & _ & ? & _); done]|done]|].
  set (a1 := if isSet parser "config" then _ else _).
  set (a2 := if isSet parser "logfile" then _ else _).
  assert (logLevel a2 = -1 /\ configFile a2 = value parser "config"
          /\ logFile a2 = value parser "logfile" /\ ipcPrefix a2 = ""
          /\ quietCheck a2 = false) as (Hl & Hc & Hf & Hp & Hq).
  { subst a2 a1.
    destruct (isSet parser "logfile") eqn:E1, (isSet parser "config") eqn:E2;
      cbn [logLevel configFile logFile ipcPrefix quietCheck ArgsData_init];
      try rewrite (Hunset _ E1); try rewrite (Hunset _ E2); done. }
  clearbody a2. clear a1.
  assert (forall level : Z,
             (isSet parser "verbose" = true ->
              (if isSet parser "verbose" then 3 else level) = 3)
             /\ (isSet parser "verbose" = false ->
                 (if isSet parser "verbose" then 3 else level) = level)) as Hv.
  { intros level. by destruct (isSet parser "verbose"). }
  assert ((if isSet parser "ipc-prefix" then value parser "ipc-prefix"
           else ipcPrefix a2) = value parser "ipc-prefix") as Hprefix.
  { destruct (isSet parser "ipc-prefix") eqn:E; [done|].
    by rewrite Hp, (Hunset _ E). }
  assert ((if isSet parser "quiet-check" then true else quietCheck a2)
          = isSet parser "quiet-check") as Hquiet.
  { by destruct (isSet parser "quiet-check"). }
  destruct (isSet parser "loglevel") eqn:Hlevel.
  - destruct (toInt (value parser "loglevel")) as [x|] eqn:Hx.
    + destruct (x <? 0) eqn:Hneg;
        [apply Z.ltb_lt in Hneg | apply Z.ltb_ge in Hneg].
      * split; [split; [done|]|done].
        intros (_ & _ & _ & Hok). destruct (Hok eq_refl) as (y & [= <-] & Hy).
        lia.
      * cbn [logLevel configFile logFile ipcPrefix quietCheck].
        rewrite Hprefix, Hquiet. split.
        { split; [|done]. intros _.
          split; [done|]. split; [done|]. split; [done|].
          intros _. by exists x. }
        intros _. destruct (Hv x) as [Hv1 Hv2].
        split; [exact Hv1|]. split; [|split; [|by rewrite Hc, Hf]].
        -- intros Hverbose _. by rewrite (Hv2 Hverbose).
        -- destruct (isSet parser "verbose"); split;
             try done; try lia; by intros [_ ?].
    + split; [split; [done|]|done].
      intros (_ & _ & _ & Hok). by destruct (Hok eq_refl) as (y & ? & _).
  - cbn [logLevel configFile logFile ipcPrefix quietCheck].
    rewrite Hprefix, Hquiet, Hl. split.
    { split; [|done]. intros _.
      split; [done|]. split; [done|]. split; [done|]. done. }
    intros _. destruct (Hv (-1)) as [Hv1 Hv2].
    split; [exact Hv1|]. split; [done|]. split; [|by rewrite Hc, Hf].
    destruct (isSet parser "verbose"); split; try done. by intros [? _].
Qed.

Lemma parseCommandLine_outcome_witness :
  (@parseCommandLine Xff.one_digit Endpoints.verbose_loglevel ArgsData_init).1.1
  = CommandLineOk
  /\ logLevel
       (@parseCommandLine Xff.one_digit Endpoints.verbose_loglevel
          ArgsData_init).1.2 = 3
  /\ configFile
       (@parseCommandLine Xff.one_digit Endpoints.verbose_loglevel
          ArgsData_init).1.2 = "b.conf"
  /\ (@parseCommandLine Xff.one_digit Endpoints.bad_loglevel ArgsData_init).1.1
     <> CommandLineOk.
Proof.
  pose proof (@parseCommandLine_outcome Xff.one_digit Endpoints.verbose_loglevel)
    as [Hok Hargs].
  pose proof (@parseCommandLine_outcome Xff.one_digit Endpoints.bad_loglevel)
    as [Hbad _].
  split; [reflexivity|].
  destruct (Hargs eq_refl) as (Hverbose & _ & _ & Hconfig & _).
  split; [exact (Hverbose eq_refl)|]. split; [exact Hconfig|].
  intros Hr. apply Hbad in Hr as (_ & _ & _ & Hlevel).
  by destruct (Hlevel eq_refl) as (x & Hx & _).
Defined.

(** ** [run]: its three outcomes *)

Import Endpoints.

Lemma isEmpty_list_false (l : QStringList) : negb (isEmpty_list l) = true <-> l <> [].
Proof. by destruct l. Qed.

Lemma endpoints_complete (a b c : QStringList) :
  negb (isEmpty_list a) && negb (isEmpty_list b) && negb (isEmpty_list c) = true
  <-> a <> [] /\ b <> [] /\ c <> [].
Proof. destruct a, b, c; cbn; intuition congruence. Qed.

Lemma endpoints_incomplete (a b c : QStringList) :
  negb (isEmpty_list a) && negb (isEmpty_list b) && negb (isEmpty_list c) = false
  <-> ~ (a <> [] /\ b <> [] /\ c <> []).
Proof. rewrite <- endpoints_complete. symmetry. apply not_true_iff_false. Qed.





(** X8. With a client connection limit that is not negative and at least
    one worker, no worker is allowed more sessions than
    [client_maxconn], nor a negative number; the split loses fewer
    sessions than there are workers; and with more workers than sessions
    every worker's limit is 0. *)
Theorem worker_sessions_bounds `{QFileInfo} (settings : Settings)
    (args : ArgsData) (pid : Z) (configDir : QString) (a : RunLoopArgs) :
  run settings args pid configDir = Some (inr a) ->
  0 <= value_int settings "runner/client_maxconn" 50000 ->
  1 <= rl_workerCount a ->
  0 <= sessionsMax (rl_config a)
       <= value_int settings "runner/client_maxconn" 50000
  /\ sessionsTotal settings - rl_workerCount a < sessionsSum a
     <= sessionsTotal settings
  /\ (sessionsTotal settings < rl_workerCount a ->
      sessionsMax (rl_config a) = 0).
Proof.
  intros Hrun Hcm Hwc.
  destruct (run_inr _ _ _ _ _ Hrun) as (Hdiv & Hwc' & _).
  rewrite <- Hwc' in Hdiv. apply div_Some in Hdiv as [_ Hq].
  assert (0 <= sessionsTotal settings
          <= value_int settings "runner/client_maxconn" 50000) as Htotal.
  { unfold sessionsTotal, effectiveSessionsMax.
    destruct (0 <=? _) eqn:Hm; [apply Z.leb_le in Hm|]; lia. }
  rewrite Z.quot_div_nonneg in Hq by lia.
  rewrite sessionsSum_eq, Z.max_r by lia.
  pose proof (Z.mul_div_le (sessionsTotal settings) (rl_workerCount a)
                ltac:(lia)) as Hle.
  pose proof (Z.mul_succ_div_gt (sessionsTotal settings) (rl_workerCount a)
                ltac:(lia)) as Hgt.
  assert (0 <= sessionsTotal settings `div` rl_workerCount a)
    by (apply Z.div_pos; lia).
  rewrite Hq. split; [|split].
  - split; [done|]. transitivity (sessionsTotal settings); [|lia]. nia.
  - lia.
  - intros Hfew. apply Z.div_small. lia.
Qed.

Lemma worker_sessions_bounds_witness :
  exists a,
    @run Examples.unix_paths Examples.two_workers ArgsData_init 1 "/etc/pushpin"
      = Some (inr a)
    /\ 0 <= sessionsMax (rl_config a)
            <= value_int Examples.two_workers "runner/client_maxconn" 50000
    /\ sessionsTotal Examples.two_workers - rl_workerCount a < sessionsSum a.
Proof.
  eexists. split; [vm_compute; reflexivity|].
  edestruct (@worker_sessions_bounds Examples.unix_paths Examples.two_workers
               ArgsData_init 1 "/etc/pushpin") as (Hb & [Hl _] & _);
    [vm_compute; reflexivity | by vm_compute | by vm_compute |].
  split; [exact Hb|exact Hl].
Defined.

(** ** Worker threads are accounted for *)

Lemma first_failure (engineStart : Configuration -> bool) (a : RunLoopArgs)
    (ns : list Z) :
  Forall (starts engineStart a) ns
  \/ exists pre n post,
       ns = pre ++ n :: post
       /\ Forall (starts engineStart a) pre /\ ~ starts engineStart a n.
Proof.
  induction ns as [|n ns [IH|(pre & k & post & -> & Hpre & Hk)]].
  - by left.
  - unfold starts at 1 3.
    destruct (engineStart (workerConfig (rl_config a) (rl_workerCount a) n))
      eqn:Hn.
    + left. by constructor.
    + right. exists [], n, ns. repeat split; [done|].
      unfold starts. by rewrite Hn.
  - unfold starts at 1 3.
    destruct (engineStart (workerConfig (rl_config a) (rl_workerCount a) n))
      eqn:Hn.
    + right. exists (n :: pre), k, post. repeat split; [|done].
      by constructor.
    + right. exists [], n, (pre ++ k :: post). repeat split; [done|].
      unfold starts. by rewrite Hn.
Qed.

Lemma started_fmap_start (l : list Z) : started (EngineThread_start <$> l) = l.
Proof. induction l as [|n l IH]; [done|]. cbn in *. by f_equal. Qed.

Lemma deleted_fmap_delete (l : list Z) :
  deleted (EngineThread_delete <$> l) = l.
Proof. induction l as [|n l IH]; [done|]. cbn in *. by f_equal. Qed.

Lemma stopped_fmap_stop (l : list Z) : stopped (EngineThread_stop <$> l) = l.
Proof. induction l as [|n l IH]; [done|]. cbn in *. by f_equal. Qed.

Lemma started_fmap_delete (l : list Z) :
  started (EngineThread_delete <$> l) = [].
Proof. induction l as [|n l IH]; [done|]. cbn in *. by f_equal. Qed.

Lemma started_fmap_stop (l : list Z) : started (EngineThread_stop <$> l) = [].
Proof. induction l as [|n l IH]; [done|]. cbn in *. by f_equal. Qed.

Lemma deleted_fmap_start (l : list Z) : deleted (EngineThread_start <$> l) = [].
Proof. induction l as [|n l IH]; [done|]. cbn in *. by f_equal. Qed.

Lemma deleted_fmap_stop (l : list Z) : deleted (EngineThread_stop <$> l) = [].
Proof. induction l as [|n l IH]; [done|]. cbn in *. by f_equal. Qed.

Lemma stopped_fmap_start (l : list Z) : stopped (EngineThread_start <$> l) = [].
Proof. induction l as [|n l IH]; [done|]. cbn in *. by f_equal. Qed.

Lemma stopped_fmap_delete (l : list Z) :
  stopped (EngineThread_delete <$> l) = [].
Proof. induction l as [|n l IH]; [done|]. cbn in *. by f_equal. Qed.

Lemma started_app (l k : list Action) : started (l ++ k) = started l ++ started k.
Proof. apply omap_app. Qed.

Lemma deleted_app (l k : list Action) : deleted (l ++ k) = deleted l ++ deleted k.
Proof. apply omap_app. Qed.

Lemma stopped_app (l k : list Action) : stopped (l ++ k) = stopped l ++ stopped k.
Proof. apply omap_app. Qed.

(** Rewriting the started, stopped and deleted threads of a log that is
    built from the lists of the handlers. *)
Ltac threads_of_log :=
  repeat first
    [ rewrite started_app | rewrite deleted_app | rewrite stopped_app
    | rewrite started_fmap_start | rewrite started_fmap_delete
    | rewrite started_fmap_stop | rewrite deleted_fmap_start
    | rewrite deleted_fmap_delete | rewrite deleted_fmap_stop
    | rewrite stopped_fmap_start | rewrite stopped_fmap_delete
    | rewrite stopped_fmap_stop ].

(** The threads of the literal parts of a log, by computation. *)
Ltac threads_of_literals :=
  repeat match goal with
         | |- context [started (?x :: ?l)] =>
             let v := eval cbv in (started (x :: l)) in
             change (started (x :: l)) with v
         | |- context [deleted (?x :: ?l)] =>
             let v := eval cbv in (deleted (x :: l)) in
             change (deleted (x :: l)) with v
         | |- context [stopped (?x :: ?l)] =>
             let v := eval cbv in (stopped (x :: l)) in
             change (stopped (x :: l)) with v
         end.

(** The outcome of the startup closure, whatever engines start. *)
Lemma startup_cases (engineStart : Configuration -> bool) (a : RunLoopArgs) :
  exists st,
    startup engineStart a = Some st
    /\ ((Forall (starts engineStart a) (workerIndices (rl_workerCount a))
         /\ exitCode st = None
         /\ threads st = workerIndices (rl_workerCount a)
         /\ started (log st) = workerIndices (rl_workerCount a)
         /\ deleted (log st) = []
         /\ stopped (log st) = [])
        \/ (exists pre n post,
              workerIndices (rl_workerCount a) = pre ++ n :: post
              /\ ~ starts engineStart a n
              /\ exitCode st = Some 1
              /\ threads st = []
              /\ started (log st) = pre ++ [n]
              /\ deleted (log st) = n :: pre
              /\ stopped (log st) = [])).
Proof.
  unfold startup.
  destruct (first_failure engineStart a (workerIndices (rl_workerCount a)))
    as [Hall|(pre & n & post & Hidx & Hpre & Hn)].
  - rewrite (startWorkers_all _ _ _ _ Hall). cbn [mbind option_bind].
    eexists. split; [done|]. left.
    cbn [exitCode threads log emit app]. threads_of_log.
    cbn. by rewrite app_nil_r.
  - rewrite Hidx, (startWorkers_failure _ _ _ _ _ _ Hpre Hn).
    cbn [mbind option_bind]. eexists. split; [done|]. right.
    exists pre, n, post. split; [done|]. split; [done|].
    cbn [exitCode threads log app]. split; [done|]. split; [done|].
    rewrite (cons_middle (EngineThread_start n)),
      (cons_middle (EngineThread_delete n)).
    threads_of_log.
    destruct (rl_newEventLoop a); cbn; by rewrite ?app_nil_r.
Qed.


(** X10. Whichever way the startup ended, the quit handler stops exactly
    the threads still in the list, in their order, before it deletes any of
    them; afterwards the list is empty, every thread that was ever
    started has been deleted exactly once, exit code 0 is requested, and
    a later change of the routes notifies no thread. *)
Theorem quit_deletes_every_thread (engineStart : Configuration -> bool)
    (a : RunLoopArgs) :
  exists st,
    startup engineStart a = Some st
    /\ let st' := on_quit (rl_newEventLoop a) st in
       threads st' = []
       /\ exitCode st' = Some 0
       /\ stopped (log st') = threads st
       /\ started (log st') ≡ₚ deleted (log st')
       /\ NoDup (deleted (log st'))
       /\ (exists before,
             log st' = before ++ (EngineThread_delete <$> threads st)
                       ++ [log_debug "stopped";
                           if rl_newEventLoop a then EventLoop_exit 0
                           else QCoreApplication_exit 0]
             /\ stopped before = threads st)
       /\ log (on_changed st') = log st'.
Proof.
  assert (exists st, startup engineStart a = Some st
                     /\ NoDup (started (log st))
                     /\ started (log st) ≡ₚ threads st ++ deleted (log st)
                     /\ stopped (log st) = []) as (st & Hst & Hnd & Hperm & Hstop).
  { destruct (startup_cases engineStart a)
      as (st & Hst & [(Hall & He & Ht & Hs & Hd & Hp)
                     |(pre & n & post & Hidx & Hn & He & Ht & Hs & Hd & Hp)]);
      exists st; (split; [done|]); rewrite Hs, Ht, Hd, Hp.
    - split; [apply NoDup_seqZ|]. by rewrite app_nil_r.
    - split; [|split; [cbn; by rewrite Permutation_app_comm|done]].
      pose proof (NoDup_seqZ 0 (rl_workerCount a)) as Hnd.
      unfold workerIndices in Hidx. rewrite Hidx in Hnd.
      rewrite (cons_middle n pre post), app_assoc in Hnd.
      by apply NoDup_app in Hnd as [? _]. }
  exists st. split; [done|]. intros st'. subst st'.
  unfold on_quit, exit_, deleteThreads, emit, on_changed.
  cbn [threads exitCode log domainMap fmap list_fmap].
  split; [done|]. split; [done|].
  assert (started (log st) ≡ₚ deleted (log st) ++ threads st) as Hperm'
    by (by rewrite Hperm, Permutation_app_comm).
  destruct (rl_newEventLoop a);
    threads_of_log; rewrite Hstop; threads_of_literals;
    rewrite ?app_nil_r, ?app_nil_l;
    (split; [done|]); (split; [exact Hperm'|]);
    (split; [by rewrite <- Hperm'|]);
    (split; [|cbn [emit log]; by rewrite app_nil_r]);
    (exists (log st ++ [log_info "stopping..."; ProcessQuit_cleanup]
                    ++ (EngineThread_stop <$> threads st)); split;
     [by rewrite <- !app_assoc
     |threads_of_log; threads_of_literals; by rewrite Hstop, ?app_nil_r]).
Qed.


(** ** Deleting a worker thread *)

Module TeardownProofs.
Import EngineThread Teardown.

Lemma after_start_barrier (r : bool) :
  let s := exec r 16 init in
  sup s = SDone r
  /\ wrk s = (if r then WRunning else WFinished)
  /\ EngineThread.m s = m (after_start r)
  /\ EngineThread.worker s = worker (after_start r)
  /\ EngineThread.loopExit s = loopExit (after_start r).
Proof. by destruct r. Qed.







End TeardownProofs.

(** ** The conncheck reply, both ways *)

Module ConnCheckMore.
Import Qt ControlRequest.

Section WithUtf8.
Context `{Utf8}.

Lemma collect_Some (l : list QVariant) (out o : gset QString) :
  collect l out = Some o -> exists bs, l = VByteArray <$> bs.
Proof.
  revert out. induction l as [|v l IH]; intros out; simpl.
  - intros _. by exists [].
  - destruct v; simpl; try done.
    intros (bs & ->)%IH. by exists (b :: bs).
Qed.

(** X12. The conncheck request finishes successfully exactly when the reply
    succeeded and its result is a list of byte arrays; it then carries an
    id set with at most as many ids as the list has entries, and a failed
    request never carries an id set. *)
Theorem conncheck_ok_iff (req : Reply) :
  (ok (req_finished req) = true <->
   success req = true /\ exists bs, result req = VList (VByteArray <$> bs))
  /\ (ok (req_finished req) = true ->
      exists (ids : gset QString) (bs : list QByteArray),
        value (req_finished req) = VCidSet ids
        /\ result req = VList (VByteArray <$> bs)
        /\ (size ids <= length bs)%nat)
  /\ (ok (req_finished req) = false ->
      forall ids, value (req_finished req) <> VCidSet ids).
Proof.
  assert (forall bs, success req = true ->
            result req = VList (VByteArray <$> bs) ->
            req_finished req
            = setFinished true (VCidSet (list_to_set (fromUtf8 <$> bs))))
    as Hgood.
  { intros bs Hok Hres. unfold req_finished. rewrite Hok, Hres.
    cbn [typeId is_QVariantList negb toList].
    rewrite ConnCheckProofs.collect_byte_arrays.
    by rewrite (left_id_L ∅ (∪)). }
  assert (ok (req_finished req) = true ->
          success req = true /\ exists bs, result req = VList (VByteArray <$> bs))
    as Honly.
  { unfold req_finished. destruct (success req); [|done].
    destruct (result req) as [| | | | |l|]; try done.
    cbn [typeId is_QVariantList negb toList].
    destruct (collect l ∅) as [o|] eqn:Hc; [|done].
    apply collect_Some in Hc as (bs & ->). intros _. split; [done|].
    by exists bs. }
  split; [|split].
  - split; [exact Honly|]. intros (Hok & bs & Hres).
    by rewrite (Hgood bs).
  - intros (Hok & bs & Hres)%Honly. rewrite (Hgood bs) by done.
    eexists _, bs. split; [done|]. split; [done|].
    rewrite <- (length_fmap fromUtf8 bs).
    generalize (fromUtf8 <$> bs). intros l.
    induction l as [|x l IH]; [done|].
    rewrite list_to_set_cons. simpl.
    destruct (decide (x ∈ (list_to_set l : gset QString))) as [Hin|Hout].
    + rewrite (subseteq_union_1_L {[x]} (list_to_set l))
        by by apply singleton_subseteq_l.
      lia.
    + rewrite size_union by by apply disjoint_singleton_l.
      rewrite size_singleton. lia.
  - unfold req_finished. destruct (success req); [|done].
    destruct (negb (is_QVariantList (typeId (result req)))); [done|].
    destruct (collect (toList (result req)) ∅); done.
Qed.

(** X13. A reply that returns the ids of the request as they were sent
    finishes the request with the set that was asked about, provided text
    survives the conversion to UTF-8 and back; in general the ids of the
    reply are decoded one by one. *)
Theorem conncheck_round_trip (cids : gset QString) (errorCondition : Z) :
  (forall s, fromUtf8 (toUtf8 s) = s) ->
  (forall v,
      args (ConnCheck_start cids) !! "ids" = Some v ->
      req_finished {| success := true; result := v;
                      errorCondition := errorCondition |}
      = setFinished true (VCidSet cids))
  /\ (forall known : list QString,
        req_finished
          {| success := true;
             result := VList ((fun cid => VByteArray (toUtf8 cid)) <$> known);
             errorCondition := errorCondition |}
        = setFinished true (VCidSet (list_to_set known))).
Proof.
  intros Hround.
  assert (forall known : list QString,
             req_finished
               {| success := true;
                  result := VList ((fun cid => VByteArray (toUtf8 cid)) <$> known);
                  errorCondition := errorCondition |}
             = setFinished true (VCidSet (list_to_set known))) as Hknown.
  { intros known. unfold req_finished.
    cbn [success result typeId is_QVariantList negb toList].
    replace ((fun cid => VByteArray (toUtf8 cid)) <$> known)
      with (VByteArray <$> (toUtf8 <$> known))
      by (by rewrite <- list_fmap_compose).
    rewrite ConnCheckProofs.collect_byte_arrays, (left_id_L ∅ (∪)).
    do 3 f_equal. rewrite <- list_fmap_compose.
    induction known as [|x known IH]; [done|].
    cbn. by rewrite Hround, IH. }
  split; [|exact Hknown].
  intros v. unfold ConnCheck_start. cbn [args].
  rewrite lookup_insert_eq. intros [= <-].
  rewrite (ConnCheckProofs.foldl_snoc_fmap (fun cid => VByteArray (toUtf8 cid))).
  rewrite app_nil_l, Hknown. by rewrite list_to_set_elements_L.
Qed.

End WithUtf8.

Lemma conncheck_ok_iff_witness :
  exists ids,
    value (@req_finished Examples.ascii_utf8
             {| success := true;
                result := VList [VByteArray "a"; VByteArray "a"];
                errorCondition := 0 |}) = VCidSet ids.
Proof.
  destruct (proj1 (proj2 (@conncheck_ok_iff Examples.ascii_utf8
             {| success := true;
                result := VList [VByteArray "a"; VByteArray "a"];
                errorCondition := 0 |})) eq_refl) as (ids & _ & Hids & _).
  by exists ids.
Defined.

Lemma conncheck_round_trip_witness :
  @req_finished Examples.ascii_utf8
    {| success := true;
       result := VList ((fun cid => VByteArray cid) <$> ["a"; "b"]);
       errorCondition := 0 |}
  = setFinished true (VCidSet (list_to_set ["a"; "b"])).
Proof.
  by apply (proj2 (@conncheck_round_trip Examples.ascii_utf8 ∅ 0
                     (fun s => eq_refl)) ["a"; "b"]).
Defined.

End ConnCheckMore.

(** ** The update checker *)

Module UpdaterMore.
Import Qt Updater UpdaterPrivate.

(** X14. [req_readyRead] hands on a body only of a complete response with
    status 200, and never one longer than [MAX_RESPONSE_SIZE]; it keeps
    the request exactly when it is waiting for more, which it does exactly
    when the response is incomplete and within the size limit; a status
    other than 200 is reported only for a complete response. *)
Theorem readyRead_outcomes (response : ZhttpRequest) :
  (forall rawBody,
      (req_readyRead response).1 = BodyRead rawBody ->
      rawBody = buffered response
      /\ Z.of_nat (String.length rawBody) <= MAX_RESPONSE_SIZE
      /\ isFinished response = true /\ responseCode response = 200)
  /\ ((req_readyRead response).2 = Some response <->
      (req_readyRead response).1 = Waiting)
  /\ ((req_readyRead response).2 = None <->
      (req_readyRead response).1 <> Waiting)
  /\ ((req_readyRead response).1 = Waiting <->
      bytesAvailable response <= MAX_RESPONSE_SIZE
      /\ isFinished response = false)
  /\ (forall code,
        (req_readyRead response).1 = BadResponseCode code ->
        code = responseCode response /\ code <> 200
        /\ isFinished response = true).
Proof.
  unfold req_readyRead, bytesAvailable.
  destruct (MAX_RESPONSE_SIZE <? _) eqn:Hsize;
    [apply Z.ltb_lt in Hsize | apply Z.ltb_ge in Hsize];
    destruct (isFinished response);
    destruct (Z.eqb_spec (responseCode response) 200) as [Hcode|Hcode];
    cbn [negb fst snd];
    (split; [|split; [|split; [|split]]]).
  all: try (intros rawBody Hb; try discriminate Hb; injection Hb as <-;
            repeat split; (done || lia)).
  all: try (intros code Hb; try discriminate Hb; injection Hb as <-;
            repeat split; done).
  all: split; intros Hx; try discriminate Hx; try done;
    try (destruct Hx as [Hx1 Hx2]; try discriminate Hx2; lia);
    try (split; (done || lia)).
Qed.

Lemma readyRead_outcomes_witness :
  Z.of_nat (String.length (Examples.body 3)) <= MAX_RESPONSE_SIZE
  /\ responseCode {| buffered := Examples.body 3; isFinished := true;
                     responseCode := 200 |} = 200.
Proof.
  destruct (proj1 (readyRead_outcomes
                     {| buffered := Examples.body 3; isFinished := true;
                        responseCode := 200 |}) (Examples.body 3) eq_refl)
    as (_ & Hlen & _ & Hcode).
  done.
Defined.

Lemma add_Some (a b c : Z) : Int.add a b = Some c -> c = a + b.
Proof. apply checked_Some. Qed.

Lemma setReport_Some (d d' : Private) (r : Report) :
  setReport d r = Some d' ->
  -1 <= connectionsMax (report d) -> -1 <= connectionsMax r ->
  connectionsMax (report d')
  = Z.max (connectionsMax (report d)) (connectionsMax r)
  /\ connectionsMinutes (report d')
     = connectionsMinutes (report d) + connectionsMinutes r
  /\ messagesReceived (report d')
     = messagesReceived (report d) + messagesReceived r
  /\ messagesSent (report d') = messagesSent (report d) + messagesSent r
  /\ ops (report d') = ops (report d) + ops r
  /\ mode d' = mode d /\ req d' = req d /\ started d' = started d
  /\ currentVersion d' = currentVersion d /\ org d' = org d.
Proof.
  unfold setReport. intros Hset Hd Hr.
  apply bind_Some in Hset as (a & Ha%add_Some & Hset).
  apply bind_Some in Hset as (b & Hb%add_Some & Hset).
  apply bind_Some in Hset as (c & Hc%add_Some & Hset).
  apply bind_Some in Hset as (e & He%add_Some & [= <-]).
  cbn [report connectionsMax connectionsMinutes messagesReceived messagesSent
       ops mode req started currentVersion org].
  repeat split; try done.
  destruct (connectionsMax (report d) =? -1) eqn:H1;
    [apply Z.eqb_eq in H1 | apply Z.eqb_neq in H1]; cbn [orb]; [lia|].
  destruct (connectionsMax (report d) <? connectionsMax r) eqn:H2;
    [apply Z.ltb_lt in H2 | apply Z.ltb_ge in H2]; lia.
Qed.

(** X15. Setting reports one after the other keeps the largest
    [connectionsMax] seen and adds the counters up, as long as no
    [connectionsMax] is below the stale mark [-1]; nothing else of the
    updater changes.  The merge is defined whenever the counters are not
    negative and their totals fit an [int]. *)
Theorem setReports_merges (d : Private) (rs : list Report) :
  -1 <= connectionsMax (report d) ->
  Forall (fun r => -1 <= connectionsMax r) rs ->
  (forall d',
      setReports d rs = Some d' ->
      connectionsMax (report d')
      = foldr Z.max (connectionsMax (report d)) (connectionsMax <$> rs)
      /\ connectionsMinutes (report d')
         = connectionsMinutes (report d)
           + foldr Z.add 0 (connectionsMinutes <$> rs)
      /\ messagesReceived (report d')
         = messagesReceived (report d) + foldr Z.add 0 (messagesReceived <$> rs)
      /\ messagesSent (report d')
         = messagesSent (report d) + foldr Z.add 0 (messagesSent <$> rs)
      /\ ops (report d') = ops (report d) + foldr Z.add 0 (ops <$> rs)
      /\ mode d' = mode d /\ req d' = req d /\ started d' = started d)
  /\ (Forall (fun r => 0 <= connectionsMinutes r /\ 0 <= messagesReceived r
                       /\ 0 <= messagesSent r /\ 0 <= ops r) rs ->
      0 <= connectionsMinutes (report d) -> 0 <= messagesReceived (report d) ->
      0 <= messagesSent (report d) -> 0 <= ops (report d) ->
      connectionsMinutes (report d)
        + foldr Z.add 0 (connectionsMinutes <$> rs) <= Int.INT_MAX ->
      messagesReceived (report d)
        + foldr Z.add 0 (messagesReceived <$> rs) <= Int.INT_MAX ->
      messagesSent (report d)
        + foldr Z.add 0 (messagesSent <$> rs) <= Int.INT_MAX ->
      ops (report d) + foldr Z.add 0 (ops <$> rs) <= Int.INT_MAX ->
      is_Some (setReports d rs)).
Proof.
  intros Hd Hrs. split.
  - revert d Hd. induction Hrs as [|r rs Hr _ IH]; intros d Hd d'.
    + intros [= <-]. cbn. repeat split; lia.
    + cbn [setReports]. intros Hset.
      apply bind_Some in Hset as (d1 & H1 & Hset).
      destruct (setReport_Some _ _ _ H1 Hd Hr)
        as (Hm & Hc & Hrecv & Hsent & Hops & Hmode & Hreq & Hst & _).
      destruct (IH d1 ltac:(lia) d' Hset)
        as (-> & -> & -> & -> & -> & -> & -> & ->).
      rewrite Hm, Hc, Hrecv, Hsent, Hops, Hmode, Hreq, Hst.
      cbn [fmap list_fmap foldr]. repeat split; try lia.
      clear -Hd Hr. revert d Hd.
      generalize (connectionsMax r) Hr. clear.
      intros x Hx d Hd. generalize (connectionsMax (report d)). intros y.
      induction rs as [|r' rs IH]; cbn; [lia|]. lia.
  - intros Hpos. revert d Hd.
    assert (forall l : list Z, Forall (fun x => 0 <= x) l -> 0 <= foldr Z.add 0 l)
      as Hsum.
    { induction 1; cbn; lia. }
    induction Hpos as [|r rs (Hr1 & Hr2 & Hr3 & Hr4) Hpos IH];
      intros d Hd H1 H2 H3 H4 F1 F2 F3 F4; [by eexists|].
    inversion Hrs as [|? ? Hr Hrs']; subst.
    cbn [setReports fmap list_fmap foldr] in *.
    assert (0 <= foldr Z.add 0 (connectionsMinutes <$> rs)
            /\ 0 <= foldr Z.add 0 (messagesReceived <$> rs)
            /\ 0 <= foldr Z.add 0 (messagesSent <$> rs)
            /\ 0 <= foldr Z.add 0 (ops <$> rs)) as (S1 & S2 & S3 & S4).
    { repeat split; apply Hsum, Forall_fmap;
        eapply Forall_impl; try exact Hpos; cbn; intros; lia. }
    assert (Int.INT_MIN <= 0) as Hmin by by vm_compute.
    destruct (setReport d r) as [d1|] eqn:Hset.
    + cbn [mbind option_bind].
      destruct (setReport_Some _ _ _ Hset Hd Hr)
        as (Hm & Hc & Hrecv & Hsent & Hops & _).
      apply (IH Hrs'); rewrite ?Hm, ?Hc, ?Hrecv, ?Hsent, ?Hops; lia.
    + exfalso. unfold setReport, Int.add in Hset.
      rewrite !checked_fits in Hset by lia. done.
Qed.

Lemma setReports_merges_witness :
  exists d',
    setReports (@doRequest linux64 reporting)
      [ {| connectionsMax := 4; connectionsMinutes := 10;
           messagesReceived := 1; messagesSent := 2; ops := 3 |};
        {| connectionsMax := 2; connectionsMinutes := 5;
           messagesReceived := 0; messagesSent := 1; ops := 1 |} ] = Some d'
    /\ connectionsMax (report d') = 4 /\ ops (report d') = 4.
Proof.
  eexists. split; [vm_compute; reflexivity|].
  edestruct (setReports_merges (@doRequest linux64 reporting)
    [ {| connectionsMax := 4; connectionsMinutes := 10;
         messagesReceived := 1; messagesSent := 2; ops := 3 |};
      {| connectionsMax := 2; connectionsMinutes := 5;
         messagesReceived := 0; messagesSent := 1; ops := 1 |} ])
    as [Hmerge _]; [by vm_compute | repeat constructor; by vm_compute |].
  edestruct Hmerge as (Hmax & _ & _ & _ & Hops & _); [vm_compute; reflexivity|].
  split; [exact Hmax|exact Hops].
Defined.

Section WithPlatform.
Context `{Platform}.

(** X16. A request carries the package and the version; in report mode it
    also carries the accumulated report, with a [cmax] that is never
    negative, and leaves the report stale, so that a request started
    right after it reports only zeros; in check mode it carries no usage
    data and leaves the report alone. *)
Theorem doRequest_reports_once (d : Private) :
  req (doRequest d) = true
  /\ started (doRequest d) = started d ++ [query d]
  /\ ("package", "pushpin") ∈ query d
  /\ ("version", currentVersion d) ∈ query d
  /\ (mode d = ReportMode ->
      report (doRequest d) = stale
      /\ ("cmax", number (Z.max 0 (connectionsMax (report d)))) ∈ query d
      /\ ("cminutes", number (connectionsMinutes (report d))) ∈ query d
      /\ ("recv", number (messagesReceived (report d))) ∈ query d
      /\ ("sent", number (messagesSent (report d))) ∈ query d
      /\ ("ops", number (ops (report d))) ∈ query d
      /\ (forall k v,
            (k, v) ∈ query (doRequest d) ->
            k ∈ ["cmax"; "cminutes"; "recv"; "sent"; "ops"] -> v = "0"))
  /\ (mode d = CheckMode ->
      report (doRequest d) = report d
      /\ (forall k v,
            (k, v) ∈ query d ->
            k ∈ ["package"; "version"; "os"; "arch"; "org"])).
Proof.
  split; [done|]. split; [done|].
  split; [unfold query; by left|]. split; [unfold query; by right; left|].
  split.
  - intros Hmode. unfold doRequest, query. rewrite Hmode.
    cbn [report mode currentVersion org].
    split; [done|].
    assert ((if 0 <? connectionsMax (report d) then connectionsMax (report d)
             else 0) = Z.max 0 (connectionsMax (report d))) as ->.
    { destruct (0 <? _) eqn:Hc;
        [apply Z.ltb_lt in Hc | apply Z.ltb_ge in Hc]; lia. }
    repeat split;
      try (rewrite !elem_of_app; do 5 right; rewrite !elem_of_cons; tauto).
    intros k v Hin Hk.
    rewrite !elem_of_app in Hin.
    destruct Hin as [Hin|[Hin|[Hin|[Hin|Hin]]]].
    + repeat (apply elem_of_cons in Hin as [[= -> ->]|Hin]);
        try (by apply elem_of_nil in Hin);
        repeat (apply elem_of_cons in Hk as [Hk|Hk]; [discriminate Hk|]);
        by apply elem_of_nil in Hk.
    + destruct (negb (isEmpty getOs)); [|by apply elem_of_nil in Hin].
      apply list_elem_of_singleton in Hin as [= -> ->].
      repeat (apply elem_of_cons in Hk as [Hk|Hk]; [discriminate Hk|]).
      by apply elem_of_nil in Hk.
    + destruct (negb (isEmpty (number pointerBits)));
        [|by apply elem_of_nil in Hin].
      apply list_elem_of_singleton in Hin as [= -> ->].
      repeat (apply elem_of_cons in Hk as [Hk|Hk]; [discriminate Hk|]).
      by apply elem_of_nil in Hk.
    + destruct (negb (isEmpty (org d))); [|by apply elem_of_nil in Hin].
      apply list_elem_of_singleton in Hin as [= -> ->].
      repeat (apply elem_of_cons in Hk as [Hk|Hk]; [discriminate Hk|]).
      by apply elem_of_nil in Hk.
    + repeat (apply elem_of_cons in Hin as [[= -> ->]|Hin]);
        try reflexivity; try (by apply elem_of_nil in Hin).
      repeat (apply elem_of_cons in Hk as [Hk|Hk]; [discriminate Hk|]).
      by apply elem_of_nil in Hk.
  - intros Hmode. unfold doRequest, query. rewrite Hmode.
    cbn [report]. split; [done|].
    intros k v Hin. rewrite app_nil_r in Hin. rewrite !elem_of_app in Hin.
    destruct Hin as [Hin|[Hin|[Hin|Hin]]].
    + repeat (apply elem_of_cons in Hin as [[= -> ->]|Hin]);
        try (by apply elem_of_nil in Hin);
        rewrite !elem_of_cons; tauto.
    + destruct (negb (isEmpty getOs)); [|by apply elem_of_nil in Hin].
      apply list_elem_of_singleton in Hin as [= -> ->].
      rewrite !elem_of_cons; tauto.
    + destruct (negb (isEmpty (number pointerBits)));
        [|by apply elem_of_nil in Hin].
      apply list_elem_of_singleton in Hin as [= -> ->].
      rewrite !elem_of_cons; tauto.
    + destruct (negb (isEmpty (org d))); [|by apply elem_of_nil in Hin].
      apply list_elem_of_singleton in Hin as [= -> ->].
      rewrite !elem_of_cons; tauto.
Qed.

Lemma handle_invariant (d : Private) (e : Event) :
  (length (started (handle d e)) + (if req (handle d e) then 0 else 1)
   <= length (started d) + (if req d then 0 else 1)
      + (if ends_request e then 1 else 0))%nat
  /\ started d `prefix_of` started (handle d e)
  /\ mode (handle d e) = mode d.
Proof.
  destruct e as [|response|]; cbn [handle ends_request].
  - unfold timer_timeout. destruct (req d) eqn:Hreq; cbn [negb].
    + rewrite Hreq. split; [lia|done].
    + cbn [doRequest req started mode]. rewrite length_app. cbn.
      split; [lia|]. split; [by apply prefix_app_r|done].
  - unfold on_readyRead. destruct (req d) eqn:Hreq.
    + destruct (req_readyRead response) as [outcome [r|]]; cbn [snd].
      * rewrite Hreq. split; [lia|done].
      * cbn [cleanupRequest req started mode]. split; [lia|done].
    + rewrite Hreq. split; [|done]. destruct (req_readyRead response) as [? [?|]]; lia.
  - destruct (req d) eqn:Hreq.
    + cbn [req_error cleanupRequest req started mode]. split; [lia|done].
    + rewrite Hreq. split; [lia|done].
Qed.

(** X17. The updater never has two requests under way: a timeout while a
    request is outstanding changes nothing, and over any sequence of
    events the requests started are at most one more than the events that
    ended a request (by an error, a rejection or the reading of the body);
    requests already started are never taken back. *)
Theorem one_request_at_a_time (d : Private) (events : list Event) :
  (req d = true -> handle d Timeout = d)
  /\ (length (started (foldl handle d events))
        + (if req (foldl handle d events) then 0 else 1)
      <= length (started d) + (if req d then 0 else 1)
         + length (filter (fun e => ends_request e = true) events))%nat
  /\ started d `prefix_of` started (foldl handle d events).
Proof.
  split.
  - intros Hreq. cbn. unfold timer_timeout. by rewrite Hreq.
  - revert d. induction events as [|e events IH]; intros d.
    + cbn. split; [lia|done].
    + cbn [foldl]. destruct (IH (handle d e)) as [Hlen Hpre].
      destruct (handle_invariant d e) as (Hstep & Hpre' & _).
      split; [|by etrans].
      destruct (ends_request e) eqn:He.
      * rewrite filter_cons_True by done. cbn [length]. lia.
      * rewrite filter_cons_False by (by rewrite He). lia.
Qed.

End WithPlatform.

Lemma doRequest_reports_once_witness :
  ("cmax", "7") ∈ @query linux64 reporting
  /\ ("ops", "14") ∈ @query linux64 reporting
  /\ report (@doRequest linux64 reporting) = stale.
Proof.
  destruct (@doRequest_reports_once linux64 reporting)
    as (_ & _ & _ & _ & Hreport & _).
  destruct (Hreport eq_refl) as (Hstale & Hcmax & _ & _ & _ & Hops & _).
  done.
Defined.

Lemma one_request_at_a_time_witness :
  @handle linux64 (@doRequest linux64 reporting) Timeout
  = @doRequest linux64 reporting.
Proof.
  by apply (@one_request_at_a_time linux64 (@doRequest linux64 reporting) []).
Defined.

Lemma announce_spacing (version link : QString) (now : Z) (last : option Z) :
  match announce version link now last with
  | (last', Some _) =>
      last' = Some now /\ version <> ""
      /\ match last with
         | Some p => p + 85950000 <= now
         | None => True
         end
  | (last', None) => last' = last
  end.
Proof.
  unfold announce.
  destruct (isEmpty version) eqn:Hv; cbn [negb andb]; [done|].
  apply isEmpty_false in Hv.
  destruct last as [p|]; [|done].
  destruct (p + _ <=? now) eqn:Hp; [|done].
  apply Z.leb_le in Hp. unfold CHECK_INTERVAL, REPORT_INTERVAL in Hp.
  split; [done|]. split; [done|]. exact Hp.
Qed.

(** X18. A new version is announced only for a response that names one, at
    once if none was announced before, and afterwards not again before
    85 950 000 ms (a day less seven and a half minutes) have passed since
    the last announcement: successive announcements are at least that far
    apart, whatever the times of the responses. *)
Theorem announcements_spaced (last : option Z)
    (responses : list (Z * QString * QString)) :
  spaced 85950000 last (announcements last responses)
  /\ (forall t, t ∈ announcements last responses ->
        exists version link, (t, version, link) ∈ responses /\ version <> "")
  /\ (forall now version link rest,
        last = None -> responses = (now, version, link) :: rest ->
        version <> "" ->
        head (announcements last responses) = Some now).
Proof.
  split; [|split].
  - revert last. induction responses as [|[[now version] link] rs IH];
      intros last; [done|].
    cbn [announcements]. pose proof (announce_spacing version link now last) as Ha.
    destruct (announce version link now last) as [last' [msg|]].
    + destruct Ha as (-> & _ & Hp). cbn [spaced]. split; [exact Hp|apply IH].
    + subst last'. apply IH.
  - revert last. induction responses as [|[[now version] link] rs IH];
      intros last t; [by intros ?%elem_of_nil|].
    cbn [announcements]. pose proof (announce_spacing version link now last) as Ha.
    destruct (announce version link now last) as [last' [msg|]].
    + destruct Ha as (-> & Hv & _). intros [->|Hin]%elem_of_cons.
      * exists version, link. split; [by left|done].
      * destruct (IH _ _ Hin) as (v & l & Hvl & Hne).
        exists v, l. split; [by right|done].
    + intros Hin. destruct (IH _ _ Hin) as (v & l & Hvl & Hne).
      exists v, l. split; [by right|done].
  - intros now version link rest -> -> Hv. cbn [announcements].
    unfold announce. apply isEmpty_false in Hv. by rewrite Hv.
Qed.

Lemma announcements_spaced_witness :
  head (announcements None [(1000, "1.42.0", ""); (2000, "1.42.0", "")])
  = Some 1000.
Proof.
  by apply (proj2 (proj2 (announcements_spaced None
              [(1000, "1.42.0", ""); (2000, "1.42.0", "")]))
            1000 "1.42.0" "" [(2000, "1.42.0", "")]).
Defined.

End UpdaterMore.

(** ** Bounds on the budgets *)



(** ** The endpoints [run] selects *)

Lemma run_inr_endpoints `{QFileInfo} (settings : Settings) (args : ArgsData)
    (pid : Z) (configDir : QString) (a : RunLoopArgs) :
  run settings args pid configDir = Some (inr a) ->
  let services := value_list settings "runner/services" in
  let both key key' := nonblank settings key ++ nonblank settings key' in
  let si := both "proxy/connmgr_in_specs" "proxy/condure_in_specs" in
  let ss := both "proxy/connmgr_in_stream_specs"
                 "proxy/condure_in_stream_specs" in
  let so := both "proxy/connmgr_out_specs" "proxy/condure_out_specs" in
  let co := both "proxy/connmgr_client_out_specs"
                 "proxy/condure_client_out_specs" in
  let cs := both "proxy/connmgr_client_out_stream_specs"
                 "proxy/condure_client_out_stream_specs" in
  let ci := both "proxy/connmgr_client_in_specs"
                 "proxy/condure_client_in_specs" in
  (serverInSpecs (rl_config a), serverInStreamSpecs (rl_config a),
   serverOutSpecs (rl_config a))
  = (if negb (contains services "mongrel2")
        && (negb (isEmpty_list si) || negb (isEmpty_list ss)
            || negb (isEmpty_list so))
     then (si, ss, so)
     else (nonblank settings "proxy/m2a_in_specs",
           nonblank settings "proxy/m2a_in_stream_specs",
           nonblank settings "proxy/m2a_out_specs"))
  /\ (clientOutSpecs (rl_config a), clientOutStreamSpecs (rl_config a),
      clientInSpecs (rl_config a))
     = (if negb (contains services "zurl")
           && (negb (isEmpty_list co) || negb (isEmpty_list cs)
               || negb (isEmpty_list ci))
        then (co, cs, ci)
        else (nonblank settings "proxy/zurl_out_specs",
              nonblank settings "proxy/zurl_out_stream_specs",
              nonblank settings "proxy/zurl_in_specs")).
Proof.
  unfold run, nonblank. rewrite !trimmed_spec. cbn [mbind option_bind].
  repeat match goal with
         | |- context [if ?b then Some (inl 1) else _] => destruct b
         end; try discriminate.
  destruct (Int.div _ _) as [q|]; [|discriminate].
  cbn [mbind option_bind]. intros [= <-].
  cbn [rl_config serverInSpecs serverInStreamSpecs serverOutSpecs
       clientOutSpecs clientOutStreamSpecs clientInSpecs].
  split.
  - match goal with
    | |- context [if ?c then (_, _, _) else _] => by destruct c
    end.
  - match goal with
    | |- context [if ?c then (_, _, _) else _] => by destruct c
    end.
Qed.

(** X20. The services listed in the settings decide which endpoints a
    worker uses: with ["mongrel2"] among them the server specs are the
    Mongrel2 adapter lists, without it they are the connection-manager
    lists (with the legacy [condure] entries appended) as soon as one of
    these has an entry, and the adapter lists otherwise; the client specs
    are chosen between the Zurl lists and the connection-manager client
    lists by ["zurl"] in the same way. *)
Theorem run_selects_endpoints `{QFileInfo} (settings : Settings)
    (args : ArgsData) (pid : Z) (configDir : QString) (a : RunLoopArgs) :
  run settings args pid configDir = Some (inr a) ->
  let services := value_list settings "runner/services" in
  let both key key' := nonblank settings key ++ nonblank settings key' in
  let server := (serverInSpecs (rl_config a),
                 serverInStreamSpecs (rl_config a),
                 serverOutSpecs (rl_config a)) in
  let client := (clientOutSpecs (rl_config a),
                 clientOutStreamSpecs (rl_config a),
                 clientInSpecs (rl_config a)) in
  let connmgr :=
    (both "proxy/connmgr_in_specs" "proxy/condure_in_specs",
     both "proxy/connmgr_in_stream_specs" "proxy/condure_in_stream_specs",
     both "proxy/connmgr_out_specs" "proxy/condure_out_specs") in
  let m2a :=
    (nonblank settings "proxy/m2a_in_specs",
     nonblank settings "proxy/m2a_in_stream_specs",
     nonblank settings "proxy/m2a_out_specs") in
  let connmgr_client :=
    (both "proxy/connmgr_client_out_specs" "proxy/condure_client_out_specs",
     both "proxy/connmgr_client_out_stream_specs"
          "proxy/condure_client_out_stream_specs",
     both "proxy/connmgr_client_in_specs" "proxy/condure_client_in_specs") in
  let zurl :=
    (nonblank settings "proxy/zurl_out_specs",
     nonblank settings "proxy/zurl_out_stream_specs",
     nonblank settings "proxy/zurl_in_specs") in
  ("mongrel2" ∈ services -> server = m2a)
  /\ ("mongrel2" ∉ services -> connmgr <> ([], [], []) -> server = connmgr)
  /\ ("mongrel2" ∉ services -> connmgr = ([], [], []) -> server = m2a)
  /\ ("zurl" ∈ services -> client = zurl)
  /\ ("zurl" ∉ services -> connmgr_client <> ([], [], []) ->
      client = connmgr_client)
  /\ ("zurl" ∉ services -> connmgr_client = ([], [], []) -> client = zurl).
Proof.
  intros Hrun services both server client connmgr m2a connmgr_client zurl.
  destruct (run_inr_endpoints _ _ _ _ _ Hrun) as [Hserver Hclient].
  fold services in Hserver, Hclient. fold server in Hserver.
  fold client in Hclient. unfold contains in Hserver, Hclient.
  subst connmgr m2a connmgr_client zurl both. cbv beta.
  rewrite Hserver, Hclient. clear Hserver Hclient Hrun server client.
  generalize
    (nonblank settings "proxy/connmgr_in_specs"
     ++ nonblank settings "proxy/condure_in_specs")
    (nonblank settings "proxy/connmgr_in_stream_specs"
     ++ nonblank settings "proxy/condure_in_stream_specs")
    (nonblank settings "proxy/connmgr_out_specs"
     ++ nonblank settings "proxy/condure_out_specs")
    (nonblank settings "proxy/connmgr_client_out_specs"
     ++ nonblank settings "proxy/condure_client_out_specs")
    (nonblank settings "proxy/connmgr_client_out_stream_specs"
     ++ nonblank settings "proxy/condure_client_out_stream_specs")
    (nonblank settings "proxy/connmgr_client_in_specs"
     ++ nonblank settings "proxy/condure_client_in_specs").
  intros si ss so co cs ci.
  (split; [|split; [|split; [|split; [|split]]]]); intros Hin;
    first [ rewrite (bool_decide_eq_true_2 _ Hin)
          | rewrite (bool_decide_eq_false_2 _ Hin) ];
    cbn [negb andb]; try done;
    first [ destruct si, ss, so; cbn [negb orb isEmpty_list]; by intros
          | destruct co, cs, ci; cbn [negb orb isEmpty_list]; by intros ].
Qed.

Lemma run_selects_endpoints_witness :
  exists a,
    @run Examples.unix_paths Examples.two_workers ArgsData_init 1 "/etc/pushpin"
      = Some (inr a)
    /\ serverOutSpecs (rl_config a) = ["ipc://out"].
Proof.
  eexists. split; [vm_compute; reflexivity|].
  edestruct (@run_selects_endpoints Examples.unix_paths Examples.two_workers
               ArgsData_init 1 "/etc/pushpin") as (_ & Hconnmgr & _);
    [vm_compute; reflexivity|].
  exact (f_equal snd
           (Hconnmgr ltac:(intros Hin; vm_compute in Hin; inversion Hin)
                     ltac:(vm_compute; discriminate))).
Defined.
